(** * CityManager: ruin exploration, march budget and element clicks

    A shallow embedding of [city_manager.py] (class [CityManager]) together
    with the two [MinimalBot] methods it calls
    ([detect_ui_element_in_area] and [click_coordinate] of [minimal_bot.py]).

    The Python methods run against a device, a template matcher and a file.
    They are written here in a small state monad over a [World]; early
    [return], exceptions and [try]/[except] are part of the monad, so every
    method reads statement by statement like its source.

    What is outside the repository is an oracle of the world: the template
    matcher (OpenCV behind [detect_ui_element_in_area]) and the debug bridge
    ([device.shell], which may raise). What the model leaves out: delays
    ([time.sleep] is a no-op), the timestamp of log lines, the text of caught
    exceptions, and failures of the file system (the explored file is read
    and written without error; the [except] branches of the two file helpers
    are there but never taken). The configuration has the shape that
    [save_element_to_config] writes. One flow runs at a time. *)

From Stdlib Require Import QArith Ascii.
From stdpp Require Import base tactics option list strings pretty gmap.

Local Open Scope Z_scope.

(** ** Data *)

(** A search rectangle [x1, y1, x2, y2] of the configuration file. *)
Definition Area : Type := Z * Z * Z * Z.

(** One entry of ["ui_elements"] in [minimal_config.json]: the image path,
    an optional search rectangle and an optional match threshold (the
    format written by [save_element_to_config]). Such an entry is a
    non-empty dict, hence truthy in Python. *)
Record ElementConfig := {
  image_path : string;
  search_area : option Area;
  threshold : option Q
}.

(** [self.config]: the JSON object read by [load_config]; [{}] when the file
    could not be read. Only its ["ui_elements"] member is used. *)
Record Config := {
  ui_elements : option (gmap string ElementConfig)
}.

(** [self.config.get("ui_elements", {}).get(name)] *)
Definition config_get (c : Config) (name : string) : option ElementConfig :=
  default ∅ (ui_elements c) !! name.

(** The [MinimalBot] fields read by [CityManager]: whether [device] and
    [gui_detector] are set ([connect_device] sets [device] first and
    [gui_detector] only once the device answered). *)
Record Bot := {
  device : bool;
  gui_detector : bool
}.

(** The collaborators that are not in the repository, as oracles indexed by
    the number of device calls made so far: the template matcher behind
    [detect_ui_element_in_area] ([Some centre] for a match at or above the
    threshold, [None] for no match or a caught detection error) and whether
    [device.shell] raises. *)
Record Env := {
  screen_match : nat → string → option Area → Q → option (Z * Z);
  shell_raises : nat → string → bool
}.

(** Ghost events: a completed call of one of three methods, with its
    arguments and, in the event, its result ([None] when it raised). They are
    not in the source; they make the calls of a run observable. *)
Inductive Call :=
  | CClickElement (element_name : string) (max_attempts : Z) (thr : Q)
  | CInputCoordinate (coord_type value : string)
  | CSearchRuin (x y : Z).

Inductive Event :=
  | EvLog (msg : string)          (* CityManager.log *)
  | EvPrint (msg : string)        (* print of MinimalBot *)
  | EvDetect (image : string) (area : option Area) (thr : Q)
             (found : option (Z * Z))   (* detect_ui_element_in_area *)
  | EvShell (cmd : string) (ok : bool)  (* device.shell *)
  | EvSave (l : list string)      (* explored_ruins.json rewritten *)
  | EvCall (c : Call) (r : option bool).

(** [explored_file] is the content of [explored_ruins.json], a JSON array of
    strings; [None] when the file is missing or unreadable (both make
    [load_explored_ruins] return the empty list). Writes succeed. *)
Record World := {
  bot : Bot;
  config : Config;
  env : Env;
  tick : nat;
  explored_file : option (list string);
  trace : list Event
}.

Inductive Exn :=
  | AttributeError   (* [None.shell]: no device object *)
  | DeviceError.     (* raised by [device.shell] *)

(** ** The statement monad *)

(** A statement either falls through with a value, executes [return r], or
    raises. *)
Inductive Res (R A : Type) :=
  | Next (a : A)
  | Ret (r : R)
  | Exc (e : Exn).
Arguments Next {R A} a.
Arguments Ret {R A} r.
Arguments Exc {R A} e.

Definition Body (R A : Type) : Type := World → Res R A * World.

(** The result of a call: a value or an exception. *)
Inductive Outcome (A : Type) :=
  | Val (a : A)
  | Err (e : Exn).
Arguments Val {A} a.
Arguments Err {A} e.

Definition Py (A : Type) : Type := World → Outcome A * World.

Module PyMonad.

Definition pure {R A} (a : A) : Body R A := λ w, (Next a, w).

Definition bind {R A B} (m : Body R A) (k : A → Body R B) : Body R B :=
  λ w, match m w with
       | (Next a, w') => k a w'
       | (Ret r, w') => (Ret r, w')
       | (Exc e, w') => (Exc e, w')
       end.

(** [return r] *)
Definition return_ {R A} (r : R) : Body R A := λ w, (Ret r, w).

(** [raise] *)
Definition raise {R A} (e : Exn) : Body R A := λ w, (Exc e, w).

(** [try: body except Exception: handler] *)
Definition try_except {R A} (body handler : Body R A) : Body R A :=
  λ w, match body w with
       | (Exc _, w') => handler w'
       | r => r
       end.

(** A method: a body whose fall-through value is its result. *)
Definition fn {R} (body : Body R R) : Py R :=
  λ w, match body w with
       | (Next r, w') | (Ret r, w') => (Val r, w')
       | (Exc e, w') => (Err e, w')
       end.

(** Calling a method from a statement. *)
Definition call {R A} (m : Py A) : Body R A :=
  λ w, match m w with
       | (Val a, w') => (Next a, w')
       | (Err e, w') => (Exc e, w')
       end.

Definition emit {R} (e : Event) : Body R unit :=
  λ w, (Next tt,
        {| bot := bot w; config := config w; env := env w; tick := tick w;
           explored_file := explored_file w; trace := trace w ++ [e] |}).

(** A method whose completed calls are recorded in the trace. *)
Definition traced (c : Call) (m : Py bool) : Py bool :=
  λ w, match m w with
       | (Val b, w') => (Val b, snd (emit (R:=unit) (EvCall c (Some b)) w'))
       | (Err e, w') => (Err e, snd (emit (R:=unit) (EvCall c None) w'))
       end.

(** Reading the world. *)
Definition gets {R A} (f : World → A) : Body R A := λ w, (Next (f w), w).

(** One call to the device or to the matcher has been made. *)
Definition advance {R} : Body R unit :=
  λ w, (Next tt,
        {| bot := bot w; config := config w; env := env w;
           tick := S (tick w);
           explored_file := explored_file w; trace := trace w |}).

(** [time.sleep]: delays are not part of the model. *)
Definition sleep {R} : Body R unit := pure tt.

(** What one pass through a loop body asks for next: the following
    element ([Go], also reached by [continue]) or leaving the loop
    ([Break]); both carry the local variables the loop updates. *)
Inductive Ctl (S : Type) :=
  | Go (s : S)
  | Break (s : S).
Arguments Go {S} s.
Arguments Break {S} s.

(** [for x in l: body], threading the local variables [s]. *)
Fixpoint for_each {R X S} (l : list X) (body : X → S → Body R (Ctl S))
    (s : S) : Body R S :=
  match l with
  | [] => pure s
  | x :: l' =>
      bind (body x s) (λ c,
        match c with
        | Go s' => for_each l' body s'
        | Break s' => pure s'
        end)
  end.

(** Rewriting [explored_ruins.json]. *)
Definition write_file {R} (l : list string) : Body R unit :=
  λ w, (Next tt,
        {| bot := bot w; config := config w; env := env w; tick := tick w;
           explored_file := Some l; trace := trace w ++ [EvSave l] |}).

End PyMonad.
Import PyMonad.

#[global] Instance Body_bind R : MBind (Body R) := λ A B k m, bind m k.
#[global] Instance Body_ret R : MRet (Body R) := λ A a, pure a.

(** ** The collaborators *)

(** [self.log(message)]: the timestamp is left out. *)
Definition log {R} (message : string) : Body R unit := emit (EvLog message).

Definition print {R} (message : string) : Body R unit := emit (EvPrint message).

(** [self.bot.device.shell(cmd)] *)
Definition device_shell {R} (cmd : string) : Body R unit :=
  b ← gets bot;
  if negb (device b) then raise AttributeError
  else
    e ← gets env; t ← gets tick;
    let ok := negb (shell_raises e t cmd) in
    emit (EvShell cmd ok);;
    advance;;
    if ok then mret tt else raise DeviceError.

(** [MinimalBot.detect_ui_element_in_area]; the second component of the
    Python pair is only read when the first is [True], so the pair is an
    [option]. Without a detector the method answers [(False, None)]; without
    a device [screencap] fails and the method's own [except] answers
    [(False, message)]. *)
Definition detect_ui_element_in_area
    (image : string) (area : option Area) (thr : Q) : Py (option (Z * Z)) :=
  fn (b ← gets bot;
      e ← gets env; t ← gets tick;
      let found :=
        if negb (gui_detector b) then None
        else if negb (device b) then None
        else screen_match e t image area thr in
      emit (EvDetect image area thr found);;
      advance;;
      mret found).

(** [MinimalBot.click_coordinate] *)
Definition click_coordinate (x y : Z) : Py bool :=
  fn (b ← gets bot;
      (if negb (device b) then
         print "No device connected";; return_ false
       else mret tt);;
      try_except
        (device_shell ("input tap " +:+ pretty x +:+ " " +:+ pretty y);;
         print ("Clicked at (" +:+ pretty x +:+ ", " +:+ pretty y +:+ ")");;
         return_ true)
        (print ("Error clicking coordinate (" +:+ pretty x +:+ ", "
                +:+ pretty y +:+ "): ");;   (* the exception text follows *)
         return_ false)).

(** ** [CityManager] *)

(** [CityManager._load_ruin_coordinates]: the dict of levels, each a dict
    of areas, each a list of coordinates, in insertion order (the order in
    which [items()] walks a Python dict). *)
Definition _load_ruin_coordinates
    : list (string * list (string * list (Z * Z))) :=
  [
    ("Level 1", [
      ("Area 1 (Founding of the Three Kingdoms)", [
        (15,149); (33,175); (34,110); (73,58); (119,50); (130,85); (133,133); (140,88);
        (157,131); (156,90); (172,111); (180,59); (193,26); (193,45); (200,151); (211,43);
        (214,34); (226,36); (238,72); (243,39); (246,30); (266,90); (270,57); (289,128);
        (310,120); (314,60); (350,55)
      ]);
      ("Area 2 (Discovering Relics)", [
        (57,214); (68,211); (94,206); (111,221); (136,224); (144,180); (152,222); (158,198);
        (206,170); (29,361); (62,315); (67,359); (78,263); (92,255); (101,332); (124,318);
        (133,350); (155,282); (9,480); (17,495); (19,455); (27,464); (48,491); (63,405);
        (108,422); (115,392); (123,377)
      ]);
      ("Area 3 (War in the Three Kingdoms)", [
        (49,575); (52,557); (64,532); (71,559); (81,620); (96,566); (114,574); (132,583);
        (138,593); (17,746); (18,710); (21,721); (32,637); (36,710); (37,726); (53,727);
        (55,639); (71,711); (46,777); (54,819); (63,800); (67,753); (84,736); (84,826);
        (100,790); (102,798); (126,805)
      ]);
      ("Area 4 (The Gnome Invasion)", [
        (76,840); (143,880); (152,833); (152,853); (152,860); (153,921); (164,893); (172,834);
        (194,834); (191,895); (205,937); (221,873); (265,862); (275,890); (279,865); (298,957);
        (306,908); (314,932)
      ]);
      ("Area 5 (A New Summons)", [
        (449,961); (455,981); (467,966); (472,985); (487,934); (508,902); (525,923); (544,931);
        (565,950); (581,932); (585,965); (596,975)
      ]);
      ("Area 6 (History of the Magic Academy)", [
        (639,950); (665,883); (670,856); (680,961); (681,858); (691,875); (708,900); (712,878);
        (724,892); (727,912); (729,947); (739,942)
      ]);
      ("Area 7 (The Dragons and the Treasury)", [
        (800,871); (842,865); (843,925); (866,907); (868,900); (891,874); (894,901); (904,842);
        (910,855); (843,770); (843,805); (851,813); (888,761); (892,791); (892,821); (912,762);
        (913,778); (916,753)
      ]);
      ("Area 8 (Sea Trade)", [
        (960,922); (972,905); (976,925); (977,870); (996,869); (1011,868); (1012,910); (1016,846);
        (1021,884); (1059,886); (1091,879); (1094,900); (1095,891); (1104,835); (1115,907);
        (1137,854); (1149,844); (1159,833); (1032,936); (1037,926); (1062,948); (1072,940);
        (1077,932); (1104,977); (1113,924); (1123,966); (1133,948)
      ]);
      ("Area 9 (The Call of the Three Kingdoms)", [
        (972,791); (990,821); (1013,754); (1022,823); (1023,746); (1033,850); (1036,778);
        (1036,817); (1046,778); (1103,782); (1116,730); (1138,782); (1139,717); (1143,775);
        (1155,786); (1164,781); (1179,755); (1180,765)
      ]);
      ("Area 10 (The Doomsday Prophecy)", [
        (1052,715); (1063,636); (1067,726); (1073,697); (1075,688); (1119,670); (1121,624);
        (1139,629); (1139,664); (1012,574); (1016,585); (1020,608); (1038,555); (1039,593);
        (1041,562); (1058,575); (1067,573); (1096,599)
      ]);
      ("Area 11 (Harold's Ice Wall)", [
        (1073,438); (1102,417); (1103,475); (1105,496); (1116,449); (1122,487); (1134,535);
        (1138,547); (1144,415); (1043,348); (1053,343); (1070,383); (1072,346); (1079,303);
        (1102,377); (1110,397); (1152,402); (1153,414)
      ]);
      ("Area 12 (The Royal Alchemist Academy)", [
        (1008,261); (1031,239); (1040,199); (1041,220); (1042,287); (1052,206); (1065,217);
        (1075,238); (1079,278); (1055,197); (1093,148); (1101,244); (1107,142); (1118,216);
        (1120,185); (1129,151); (1149,221); (1156,168)
      ]);
      ("Area 13 (Sovereign Tomb)", [
        (943,228); (944,175); (961,149); (968,174); (984,147); (1008,128); (1020,199);
        (1039,137); (1053,136); (1023,70); (1024,43); (1037,98); (1045,76); (1073,114);
        (1112,98); (1134,70); (1152,68); (1169,113)
      ]);
      ("Area 14 (Hornheim's Disappearance)", [
        (732,123); (737,87); (753,141); (769,84); (773,163); (787,226); (797,202); (801,123);
        (811,123); (848,124); (853,92); (853,105); (885,93); (901,115); (919,62); (954,113);
        (986,123); (1007,101)
      ]);
      ("Area 15 (The Empire Crumbles)", [
        (361,82); (375,141); (378,56); (389,108); (394,140); (400,182); (426,68); (449,93);
        (451,131); (468,72); (487,87); (497,63); (501,99); (505,65); (514,144); (517,113);
        (526,172); (554,107); (568,160); (579,142); (595,73); (601,96); (608,74); (629,93);
        (647,182); (673,115); (710,87)
      ])
    ]);
    ("Level 2", [
      ("Area 16 (Sage Council)", [
        (145,260); (155,267); (167,286); (170,329); (177,278); (224,222); (239,222); (243,232);
        (255,262); (242,199); (257,231); (269,231); (283,203); (306,165); (309,192); (338,129);
        (365,160); (368,141)
      ]);
      ("Area 17 (Enigma Lieu)", [
        (140,392); (144,459); (151,353); (154,367); (164,447); (165,405); (180,425); (184,378);
        (190,412); (211,369); (214,430); (235,353)
      ]);
      ("Area 18 (Well of Time)", [
        (151,468); (155,483); (192,558); (193,520); (208,442); (210,542); (229,537); (233,509);
        (246,549); (264,557); (280,514); (300,536)
      ]);
      ("Area 19 (The First Gnome Invasion)", [
        (129,726); (149,700); (172,723); (184,690); (190,664); (198,687); (211,708); (212,642);
        (218,705); (244,655); (258,654); (266,683); (117,642); (125,631); (127,653); (161,614);
        (167,641); (177,570); (178,613); (195,617); (203,644); (204,606); (247,606); (261,645)
      ]);
      ("Area 20 (Above and Below)", [
        (226,840); (258,809); (270,801); (273,844); (284,828); (295,767); (308,760); (321,751);
        (341,770); (149,763); (174,755); (179,783); (224,781); (238,707); (241,773); (278,704);
        (282,691); (298,738)
      ]);
      ("Area 21 (Summoning Ban)", [
        (483,835); (494,859); (516,809); (517,754); (523,809); (535,806); (543,782); (556,789);
        (571,809); (352,860); (363,884); (374,894); (386,844); (386,871); (403,926); (418,928);
        (419,845); (423,916)
      ]);
      ("Area 22 (World Heart)", [
        (642,846); (646,858); (657,841); (663,765); (673,766); (686,835); (690,853); (698,740);
        (726,847); (553,893); (557,868); (572,854); (574,894); (590,899); (591,892); (596,938);
        (604,900); (609,911)
      ]);
      ("Area 23 (Terrifying Rumors)", [
        (835,665); (836,692); (840,681); (856,674); (856,684); (875,694); (880,728); (889,684);
        (890,668); (717,801); (718,750); (738,804); (740,812); (772,776); (784,778); (788,816);
        (814,815); (820,807)
      ]);
      ("Area 24 (Founding of the Empire)", [
        (885,605); (915,620); (915,653); (918,667); (925,666); (927,644); (943,661); (945,599);
        (947,653); (948,588); (965,606); (975,656); (926,764); (929,705); (930,777); (933,743);
        (956,787); (958,726); (967,697); (975,762); (980,751); (978,688); (1006,667); (1022,671)
      ]);
      ("Area 25 (Five Great Kingdoms)", [
        (899,367); (933,323); (936,399); (955,385); (958,475); (959,416); (974,394); (1011,368);
        (1016,347); (977,447); (989,435); (1003,404); (1016,481); (1024,388); (1036,470);
        (1041,440); (1047,410); (1085,398)
      ]);
      ("Area 26 (The Gnome's Birth and Exile)", [
        (877,254); (888,260); (910,256); (922,267); (927,292); (932,285); (933,304); (936,316);
        (952,280); (953,243); (958,264); (960,328); (978,298); (982,321); (991,287)
      ]);
      ("Area 27 (The War of Five Kingdoms)", [
        (752,234); (754,200); (758,213); (763,301); (787,306); (792,343); (799,293); (804,314);
        (836,283); (816,200); (820,211); (833,224); (880,220); (899,188); (908,154); (911,229);
        (914,194); (931,188)
      ]);
      ("Area 28 (The Alchemists)", [
        (367,186); (414,209); (420,267); (426,191); (428,247); (453,204); (467,249); (493,222);
        (501,228); (518,253); (538,241); (539,251); (546,188); (554,217); (558,266); (572,233);
        (600,192); (624,199); (646,226); (669,224); (695,183); (696,192); (697,158); (706,152);
        (706,216); (722,214); (734,172)
      ]);
      ("Area 29 (Hornheim)", [
        (337,282); (341,210); (358,224); (358,235); (360,246); (362,196); (364,276); (369,251);
        (383,307); (386,234); (406,283); (415,291)
      ])
    ]);
    ("Level 3", [
      ("Area 30 (Stela of New World)", [
        (268,379); (285,252); (289,361); (299,330); (301,263); (309,257); (310,275); (315,315);
        (356,332); (260,397); (276,411); (287,419); (295,453); (314,454); (326,423); (335,383);
        (338,402); (397,420)
      ]);
      ("Area 31 (Temple of Norheim)", [
        (269,666); (279,581); (296,678); (332,570); (333,556); (343,615); (376,589); (386,547);
        (395,567); (336,710); (344,751); (356,656); (357,756); (367,712); (373,668); (381,741);
        (386,624); (406,636)
      ]);
      ("Area 32 (History of the Tribes)", [
        (362,821); (384,808); (401,821); (421,812); (426,758); (457,815); (466,752); (477,775);
        (490,742); (437,658); (494,652); (504,694); (508,644); (518,666); (522,699); (535,688);
        (539,673); (543,682); (526,745); (539,748); (565,756); (569,708); (591,728); (600,730);
        (612,708); (624,759); (626,774)
      ]);
      ("Area 33 (Forbidden Zone)", [
        (739,677); (740,707); (747,748); (774,643); (775,740); (777,692); (790,690); (800,657);
        (812,688); (801,621); (808,650); (809,664); (818,593); (825,648); (830,615); (837,622);
        (837,632); (878,604)
      ]);
      ("Area 34 (Creation and the Guardians)", [
        (925,497); (932,554); (935,500); (942,571); (950,534); (960,493); (984,510); (989,547);
        (991,554); (998,538); (1014,504); (1039,507)
      ]);
      ("Area 35 (The Energy Circle)", [
        (801,548); (806,558); (859,515); (868,523); (868,533); (893,564); (897,511); (903,492);
        (907,483); (804,390); (822,399); (842,400); (853,413); (861,363); (862,329); (876,356);
        (886,375); (900,331)
      ]);
      ("Area 36 (The Destruction of Civilization)", [
        (661,276); (675,271); (691,253); (693,272); (705,328); (708,311); (721,292); (727,264);
        (727,314); (729,294); (738,265); (738,333)
      ]);
      ("Area 37 (The Memory Modification)", [
        (463,325); (471,291); (486,287); (498,343); (501,329); (511,286); (517,358); (538,337);
        (544,310); (545,345); (563,357); (576,352)
      ])
    ])
  ].

(** Defaults of [click_element]. *)
Definition default_max_attempts : Z := 4.
Definition default_threshold : Q := 0.5%Q.

(** The body of the [for attempt in range(max_attempts)] loop of
    [click_element]. *)
Definition click_attempt (element_name : string)
    (element_config : ElementConfig) (max_attempts : Z) (thr : Q)
    (attempt : Z) (_ : unit) : Body bool (Ctl unit) :=
  found ← call (detect_ui_element_in_area
                  (image_path element_config)
                  (search_area element_config)
                  (default thr (threshold element_config)));
  match found with
  | Some (center_x, center_y) =>
      adjusted_x ←
        (if bool_decide (element_name ∈ ["coordX"; "coordY"]) then
           let adjusted_x := center_x + 45 in
           log ("Adjusting click X coordinate for " +:+ element_name
                +:+ ": " +:+ pretty center_x +:+ " -> "
                +:+ pretty adjusted_x);;
           mret adjusted_x
         else mret center_x);
      clicked ← call (click_coordinate adjusted_x center_y);
      if clicked : bool then
        log ("✓ Clicked " +:+ element_name +:+ " at ("
             +:+ pretty adjusted_x +:+ ", " +:+ pretty center_y +:+ ")");;
        return_ true
      else
        log ("✗ Failed to click " +:+ element_name);;
        return_ false
  | None =>
      (if bool_decide (attempt < max_attempts - 1) then
         log ("Element '" +:+ element_name +:+ "' not found, attempt "
              +:+ pretty (attempt + 1) +:+ "/" +:+ pretty max_attempts)
       else mret tt);;
      mret (Go tt)
  end.

(** [CityManager.click_element] *)
Definition click_element (element_name : string) (max_attempts : Z) (thr : Q)
    : Py bool :=
  traced (CClickElement element_name max_attempts thr)
    (fn (b ← gets bot;
         (if negb (device b) then
            log "No device connected";; return_ false
          else mret tt);;
         cfg ← gets config;
         match config_get cfg element_name with
         | None =>
             log ("Element '" +:+ element_name +:+ "' not found in config");;
             return_ false
         | Some element_config =>
             for_each (seqZ 0 max_attempts)
               (click_attempt element_name element_config max_attempts thr)
               tt;;
             log ("✗ Element '" +:+ element_name +:+ "' not found after "
                  +:+ pretty max_attempts +:+ " attempts");;
             return_ false
         end)).

(** [CityManager.save_explored_ruins] *)
Definition save_explored_ruins (explored_ruins : list string) : Py unit :=
  fn (try_except
        (write_file explored_ruins)
        (log "Error saving explored ruins: ")).

(** [CityManager.load_explored_ruins] *)
Definition load_explored_ruins : Py (list string) :=
  fn (try_except
        (f ← gets explored_file;
         match f with
         | Some l => return_ l
         | None => return_ []
         end)
        (log "Error loading explored ruins: ";; return_ [])).

(** [CityManager.input_coordinate]; [value] is the text to type. *)
Definition input_coordinate (coord_type : string) (value : string) : Py bool :=
  traced (CInputCoordinate coord_type value)
  (fn (let adjusted_value := value in
      (if bool_decide (coord_type = "X") then device_shell "input tap 835 41"
       else if bool_decide (coord_type = "Y") then
         device_shell "input tap 965 41"
       else mret tt);;
      sleep;;
      try_except
        (for_each (seq 0 4) (λ _ _,
           device_shell "input keyevent KEYCODE_DEL";;
           sleep;;
           mret (Go tt)) tt;;
         device_shell ("input text " +:+ adjusted_value);;
         sleep;;
         device_shell "input keyevent KEYCODE_ENTER";;
         sleep;;
         log ("✓ Entered " +:+ coord_type +:+ ": " +:+ adjusted_value);;
         return_ true)
        (log ("✗ Error inputting " +:+ coord_type +:+ " coordinate: ");;
         return_ false))).

(** The statements of [search_ruin_at_coordinate] up to and including the
    [if]/[else] on the first [exploreNew] click. *)
Definition search_ruin_head (x y : Z) : Body bool unit :=
  log ("Searching for ruin at (" +:+ pretty x +:+ ", " +:+ pretty y +:+ ")");;
  ok ← call (input_coordinate "X" (pretty x));
  (if negb ok then return_ false else mret tt);;
  ok ← call (input_coordinate "Y" (pretty y));
  (if negb ok then return_ false else mret tt);;
  device_shell "input tap 1061 41";;
  sleep;;
  device_shell "input tap 951 313";;
  sleep;;
  clicked ← call (click_element "exploreNew" 1 0.4%Q);
  if clicked : bool then
    log "✓ Successfully started exploration!";;
    sleep;;
    return_ true
  else
    log "✗ Explore button not found";;
    return_ false.

(** The statements that follow that [if]/[else] in the source: the search
    for a ruin image and the second [exploreNew] click. *)
Definition search_ruin_tail : Body bool bool :=
  let ruin_variants :=
    ["foundRuin6"; "foundRuin4"; "foundRuin5"; "foundRuin3"; "1231d12d"] in
  let ruin_found := false in
  ruin_found ← for_each ruin_variants (λ ruin_variant ruin_found,
    clicked ← call (click_element ruin_variant 2 0.43%Q);
    if clicked : bool then
      log ("✓ Found ruin (" +:+ ruin_variant
           +:+ ")! Attempting to explore...");;
      mret (Break true)
    else mret (Go ruin_found)) ruin_found;
  if ruin_found : bool then
    sleep;;
    clicked ← call (click_element "exploreNew" 1 0.4%Q);
    if clicked : bool then
      log "✓ Successfully started exploration!";;
      sleep;;
      return_ true
    else
      log "✗ Explore button not found";;
      return_ false
  else
    log "No ruin found at this coordinate";;
    return_ false.

(** [CityManager.search_ruin_at_coordinate]: the whole body as written. *)
Definition search_ruin_at_coordinate (x y : Z) : Py bool :=
  traced (CSearchRuin x y) (fn (search_ruin_head x y;; search_ruin_tail)).

(** [CityManager.count_available_marches] *)
Definition count_available_marches : Py Z :=
  fn (b ← gets bot;
      (if negb (device b) then
         log "No device connected";; return_ 0
       else mret tt);;
      let march_count := 2 in
      cfg ← gets config;
      march_count ←
        match config_get cfg "MarchNb1" with
        | Some march1_config =>
            found_march1 ← call (detect_ui_element_in_area
                                   (image_path march1_config)
                                   (search_area march1_config)
                                   (default 0.5%Q (threshold march1_config)));
            match found_march1 with
            | Some _ =>
                let march_count := march_count - 1 in
                log "✓ March1 slot available";;
                mret march_count
            | None =>
                log "✗ March1 slot not available";;
                mret march_count
            end
        | None => mret march_count
        end;
      march_count ←
        match config_get cfg "MarchNb2" with
        | Some march2_config =>
            found_march2 ← call (detect_ui_element_in_area
                                   (image_path march2_config)
                                   (search_area march2_config)
                                   (default 0.6%Q (threshold march2_config)));
            match found_march2 with
            | Some _ =>
                let march_count := march_count - 1 in
                log "✓ March2 slot available";;
                mret march_count
            | None =>
                log "✗ March2 slot not available";;
                mret march_count
            end
        | None => mret march_count
        end;
      log ("Total available marches: " +:+ pretty march_count);;
      return_ march_count).

(** The local variables that the loops of [explore_ruins_flow] update. *)
Record Locals := {
  marches_used : Z;
  total_explored : Z;
  explored_ruins : list string
}.

(** [f"{x},{y}"] *)
Definition coord_key (x y : Z) : string := pretty x +:+ "," +:+ pretty y.

(** The body of the innermost loop of [explore_ruins_flow], for one
    coordinate. *)
Definition explore_coord (available_marches : Z) (coord : Z * Z) (st : Locals)
    : Body bool (Ctl Locals) :=
  if bool_decide (marches_used st >= available_marches) then mret (Break st)
  else
    let '(x, y) := coord in
    let coord_key := coord_key x y in
    if bool_decide (coord_key ∈ explored_ruins st) then mret (Go st)
    else
      started ← call (search_ruin_at_coordinate x y);
      st ← (if started : bool then
              let st := {| marches_used := marches_used st + 1;
                           total_explored := total_explored st + 1;
                           explored_ruins := explored_ruins st |} in
              log ("✅ March " +:+ pretty (marches_used st) +:+ "/"
                   +:+ pretty available_marches +:+ " started at ("
                   +:+ pretty x +:+ ", " +:+ pretty y +:+ ")");;
              mret st
            else mret st);
      let st := {| marches_used := marches_used st;
                   total_explored := total_explored st;
                   explored_ruins := explored_ruins st ++ [coord_key] |} in
      call (save_explored_ruins (explored_ruins st));;
      sleep;;
      mret (Go st).

(** The loop over the areas of one level, and the loop over the levels. *)
Definition explore_area (available_marches : Z)
    (area : string * list (Z * Z)) (st : Locals) : Body bool (Ctl Locals) :=
  if bool_decide (marches_used st >= available_marches) then mret (Break st)
  else
    let '(area_name, coordinates) := area in
    log ("  📍 Checking " +:+ area_name);;
    st ← for_each coordinates (explore_coord available_marches) st;
    mret (Go st).

Definition explore_level (available_marches : Z)
    (lv : string * list (string * list (Z * Z))) (st : Locals)
    : Body bool (Ctl Locals) :=
  if bool_decide (marches_used st >= available_marches) then mret (Break st)
  else
    let '(level, areas) := lv in
    log ("🔍 Searching " +:+ level +:+ "...");;
    st ← for_each areas (explore_area available_marches) st;
    mret (Go st).

(** [CityManager.explore_ruins_flow] *)
Definition explore_ruins_flow : Py bool :=
  fn (log "🗺️ Starting ruin exploration flow...";;
      available_marches ← call count_available_marches;
      log ("Available marches: " +:+ pretty available_marches);;
      (if bool_decide (available_marches = 0) then return_ false
       else mret tt);;
      explored_ruins ← call load_explored_ruins;
      let ruin_coords := _load_ruin_coordinates in
      log ("Previously explored ruins: " +:+ pretty (length explored_ruins));;
      st ← for_each ruin_coords (explore_level available_marches)
             {| marches_used := 0; total_explored := 0;
                explored_ruins := explored_ruins |};
      log "🎯 Ruin exploration completed!";;
      log ("   Marches used: " +:+ pretty (marches_used st) +:+ "/"
           +:+ pretty available_marches);;
      log ("   New ruins explored: " +:+ pretty (total_explored st));;
      sleep;;
      returned ← call (click_element "home_button" default_max_attempts
                         default_threshold);
      (if returned : bool then log "✓ Returned to city" else mret tt);;
      return_ (bool_decide (marches_used st > 0))).

(** ** Observing a run *)

(** The catalog in the order in which the three nested loops of
    [explore_ruins_flow] reach its coordinates. *)
Definition area_coordinates (areas : list (string * list (Z * Z)))
    : list (Z * Z) :=
  concat (areas.*2).

Definition level_coordinates
    (levels : list (string * list (string * list (Z * Z)))) : list (Z * Z) :=
  concat (area_coordinates <$> levels.*2).

Definition ruin_coordinates : list (Z * Z) :=
  level_coordinates _load_ruin_coordinates.

(** Every coordinate of the catalog with the level and the area it is
    listed under. *)
Definition catalog_entries : list (string * string * (Z * Z)) :=
  '(level, areas) ← _load_ruin_coordinates;
  '(area_name, coordinates) ← areas;
  coord ← coordinates;
  [(level, area_name, coord)].

(** The file content after the writes among [evs]. *)
Definition last_save (f : option (list string)) (evs : list Event)
    : option (list string) :=
  foldl (λ f e, match e with EvSave l => Some l | _ => f end) f evs.

(** [w'] is [w] after the events [evs]: the bot, the configuration and the
    oracles are the same, the trace has grown by [evs], and the file holds
    what was last written to it. *)
Record extends (w w' : World) (evs : list Event) : Prop := Extends {
  ext_bot : bot w' = bot w;
  ext_config : config w' = config w;
  ext_env : env w' = env w;
  ext_trace : trace w' = trace w ++ evs;
  ext_file : explored_file w' = last_save (explored_file w) evs
}.

(** The events that a run from [w] to [w'] added. *)
Definition new_events (w w' : World) : list Event :=
  drop (length (trace w)) (trace w').

(** A computation all of whose events satisfy [P]. *)
Definition emits {X} (P : Event → Prop) (m : World → X * World) : Prop :=
  ∀ w, ∃ evs, extends w (m w).2 evs ∧ Forall P evs.

Definition is_save (e : Event) : bool :=
  match e with EvSave _ => true | _ => false end.

Definition is_log (e : Event) : Prop :=
  match e with EvLog _ => True | _ => False end.

Definition is_detect (e : Event) : Prop :=
  match e with EvDetect _ _ _ _ => True | _ => False end.

(** The events that are neither a file write nor the record of a call. *)
Definition plain_event (e : Event) : Prop :=
  match e with
  | EvLog _ | EvPrint _ | EvDetect _ _ _ _ | EvShell _ _ => True
  | EvSave _ | EvCall _ _ => False
  end.

(** The completed calls recorded among [evs], in order. *)
Definition calls (evs : list Event) : list (Call * option bool) :=
  omap (λ e, match e with EvCall c r => Some (c, r) | _ => None end) evs.

(** Every event except a file write and a completed ruin search. *)
Definition quiet_event (e : Event) : Prop :=
  match e with
  | EvSave _ | EvCall (CSearchRuin _ _) _ => False
  | _ => True
  end.

(** A [device.shell] call that raised. *)
Definition shell_failed (e : Event) : Prop :=
  match e with EvShell _ false => True | _ => False end.

(** A detection call made with the image, the rectangle and the threshold
    that [click_element] takes from the entry [ec] (and its [thr] argument
    when the entry has no threshold). *)
Definition detection_for (ec : ElementConfig) (thr : Q)
    (d : string * option Area * Q * option (Z * Z)) : Prop :=
  d.1 = (image_path ec, search_area ec, default thr (threshold ec)).

(** What a call left in the trace as its result. *)
Definition result_of (o : Outcome bool) : option bool :=
  match o with Val b => Some b | Err _ => None end.

(** A recorded call: plain events, then the record of the call. *)
Definition one_call (c : Call) (m : Py bool) : Prop :=
  ∀ w, ∃ inner,
    extends w (m w).2 (inner ++ [EvCall c (result_of (m w).1)])
    ∧ Forall plain_event inner.

(** The completed calls of [search_ruin_at_coordinate] among [evs], in
    order: the coordinate and the result ([None]: the call raised). *)
Definition Probe : Type := Z * Z * option bool.

Definition probe_of (e : Event) : option Probe :=
  match e with
  | EvCall (CSearchRuin x y) r => Some (x, y, r)
  | _ => None
  end.

Definition probes (evs : list Event) : list Probe := omap probe_of evs.

Definition probe_coord (p : Probe) : Z * Z := p.1.

Definition probe_key (p : Probe) : string := coord_key p.1.1 p.1.2.

(** The probe returned [True]: an exploration was started. *)
Definition started (p : Probe) : bool :=
  match p.2 with Some true => true | _ => false end.

Definition successes (ps : list Probe) : Z :=
  Z.of_nat (length (filter (λ p, started p = true) ps)).

(** The probes that returned, whatever they returned. *)
Definition completed (ps : list Probe) : list Probe :=
  filter (λ p, is_Some p.2) ps.

(** The calls of [detect_ui_element_in_area] among [evs]. *)
Definition detections (evs : list Event)
    : list (string * option Area * Q * option (Z * Z)) :=
  omap (λ e, match e with
             | EvDetect image area thr found => Some (image, area, thr, found)
             | _ => None
             end) evs.

(** The completed calls of [click_element] among [evs]. *)
Definition element_click_of (c : Call * option bool)
    : option (string * Z * Q * option bool) :=
  match c with
  | (CClickElement name n thr, r) => Some (name, n, thr, r)
  | _ => None
  end.

Definition element_clicks (evs : list Event)
    : list (string * Z * Q * option bool) :=
  omap element_click_of (calls evs).

(** A statement that cannot be left by falling through. *)
Definition never_falls_through {R A} (m : Body R A) : Prop :=
  ∀ w a, (m w).1 ≠ Next a.

(** The value [count_available_marches] returns, read off the world: the
    matcher is asked at the current tick for [MarchNb1] (when configured)
    and at the following call for [MarchNb2] (when configured). *)
Definition indicator_found (w : World) (t : nat) (name : string) (thr : Q)
    : option (option (Z * Z)) :=
  ec ← config_get (config w) name;
  Some (if negb (gui_detector (bot w)) then None
        else screen_match (env w) t (image_path ec) (search_area ec)
               (default thr (threshold ec))).

Definition counted_marches (w : World) : Z :=
  if negb (device (bot w)) then 0
  else
    let f1 := indicator_found w (tick w) "MarchNb1" 0.5%Q in
    let t2 := if f1 is Some _ then S (tick w) else tick w in
    let f2 := indicator_found w t2 "MarchNb2" 0.6%Q in
    2 - (if f1 is Some (Some _) then 1 else 0)
      - (if f2 is Some (Some _) then 1 else 0).

(** The local variables after the probe of [key] returned [b]. *)
Definition after_probe (st : Locals) (key : string) (b : bool) : Locals :=
  {| marches_used := if b then marches_used st + 1 else marches_used st;
     total_explored := if b then total_explored st + 1 else total_explored st;
     explored_ruins := explored_ruins st ++ [key] |}.

(** The events of the three loops of [explore_ruins_flow] over the
    coordinates [cs] from the local variables [st], and the local variables
    at the end ([None]: a ruin search raised). *)
Inductive Walk (B : Z) :
    list (Z * Z) → Locals → list Event → option Locals → Prop :=
  | Walk_done st :
      Walk B [] st [] (Some st)
  | Walk_break cs st :
      marches_used st >= B →
      Walk B cs st [] (Some st)
  | Walk_quiet q cs st evs r :
      Forall quiet_event q →
      Walk B cs st evs r →
      Walk B cs st (q ++ evs) r
  | Walk_skip x y cs st evs r :
      marches_used st < B →
      coord_key x y ∈ explored_ruins st →
      Walk B cs st evs r →
      Walk B ((x, y) :: cs) st evs r
  | Walk_probe x y b logs cs st evs r :
      marches_used st < B →
      coord_key x y ∉ explored_ruins st →
      Forall is_log logs →
      Walk B cs (after_probe st (coord_key x y) b) evs r →
      Walk B ((x, y) :: cs) st
        (EvCall (CSearchRuin x y) (Some b) :: logs
         ++ EvSave (explored_ruins st ++ [coord_key x y]) :: evs) r
  | Walk_raise x y cs st :
      marches_used st < B →
      coord_key x y ∉ explored_ruins st →
      Walk B ((x, y) :: cs) st [EvCall (CSearchRuin x y) None] None.

(** A loop body that, run on [x], walks the coordinates [coords_of x]. *)
Definition walk_step {X} (B : Z)
    (body : X → Locals → Body bool (Ctl Locals))
    (coords_of : X → list (Z * Z)) : Prop :=
  ∀ x st w, ∃ evs,
    extends w (body x st w).2 evs
    ∧ match (body x st w).1 with
      | Next (Go st') =>
          ∀ cs evs2 r,
            Walk B cs st' evs2 r → Walk B (coords_of x ++ cs) st (evs ++ evs2) r
      | Next (Break st') => st' = st ∧ evs = [] ∧ marches_used st >= B
      | Exc e => ∀ cs, Walk B (coords_of x ++ cs) st evs None
      | Ret _ => False
      end.

(** The local variables with which the loops start. *)
Definition initial_locals (E : list string) : Locals :=
  {| marches_used := 0; total_explored := 0; explored_ruins := E |}.

(** What [load_explored_ruins] returns in [w]. *)
Definition loaded_ruins (w : World) : list string :=
  default [] (explored_file w).


(** A world in which the device is connected and [device.shell] does not
    raise, and a computation that, run in such a world, ends in such a world
    without an exception ([exc] tells which results are exceptions). *)
Definition reliable (w : World) : Prop :=
  device (bot w) = true ∧ ∀ t cmd, shell_raises (env w) t cmd = false.

Definition is_exc {R A} (r : Res R A) : Prop :=
  match r with Exc _ => True | _ => False end.

Definition is_err {A} (o : Outcome A) : Prop :=
  match o with Err _ => True | _ => False end.

Definition sound {X} (exc : X → Prop) (m : World → X * World) : Prop :=
  ∀ w, reliable w → reliable (m w).2 ∧ ¬ exc (m w).1.

(** ** Worlds on which the definitions are run *)

Definition plain_element (image : string) : ElementConfig :=
  {| image_path := image; search_area := None; threshold := None |}.

(** A connected device whose screen shows every configured element, with
    both march indicators and the explore button configured. *)
Definition all_found_world : World :=
  {| bot := {| device := true; gui_detector := true |};
     config := {| ui_elements := Some
       (<["MarchNb1" := plain_element "march1.png"]>
        (<["MarchNb2" := plain_element "march2.png"]>
         {["exploreNew" := plain_element "explore.png"]})) |};
     env := {| screen_match := λ _ _ _ _, Some (100, 50);
               shell_raises := λ _ _, false |};
     tick := 0; explored_file := None; trace := [] |}.

(** The same device with a screen that shows none of them. *)
Definition none_found_world : World :=
  {| bot := bot all_found_world;
     config := config all_found_world;
     env := {| screen_match := λ _ _ _ _, None;
               shell_raises := λ _ _, false |};
     tick := 0; explored_file := None; trace := [] |}.

(** A connected device on which every march is free (no indicator is
    configured, so none is found) and the explore button is always found:
    the flow starts two explorations. [explored] is the file content. *)
Definition two_marches_world (explored : option (list string)) : World :=
  {| bot := {| device := true; gui_detector := true |};
     config := {| ui_elements := Some
       {["exploreNew" := plain_element "explore.png"]} |};
     env := {| screen_match := λ _ _ _ _, Some (100, 50);
               shell_raises := λ _ _, false |};
     tick := 0; explored_file := explored; trace := [] |}.

(** The same device with a screen on which nothing is found during the
    first twenty device calls: the first ruin search fails. *)
Definition second_try_world : World :=
  {| bot := bot (two_marches_world None);
     config := config (two_marches_world None);
     env := {| screen_match :=
                 λ t _ _ _, if (t <? 20)%nat then None else Some (100, 50);
               shell_raises := λ _ _, false |};
     tick := 0; explored_file := None; trace := [] |}.

(** The same device when [device.shell] raises at its first call. *)
Definition failing_shell_world : World :=
  {| bot := bot (two_marches_world None);
     config := config (two_marches_world None);
     env := {| screen_match := λ _ _ _ _, Some (100, 50);
               shell_raises := λ t _, bool_decide (t = 0%nat) |};
     tick := 0; explored_file := None; trace := [] |}.

(** ** More worlds *)

(** The device of [two_marches_world] when the file already lists every
    coordinate of the catalog. *)
Definition all_explored_world : World :=
  two_marches_world (Some ((λ c, coord_key c.1 c.2) <$> ruin_coordinates)).

(** ** More observations *)

(** A text without a comma. *)
Fixpoint comma_free (s : string) : Prop :=
  match s with
  | EmptyString => True
  | String c s' => c ≠ ","%char ∧ comma_free s'
  end.

(** The calls of [device.shell] among [evs]: the command and whether it went
    through. *)
Definition shells (evs : list Event) : list (string * bool) :=
  omap (λ e, match e with EvShell cmd ok => Some (cmd, ok) | _ => None end) evs.

(** The tap with which [input_coordinate] selects the input field. *)
Definition field_tap (coord_type : string) : list string :=
  if bool_decide (coord_type = "X") then ["input tap 835 41"]
  else if bool_decide (coord_type = "Y") then ["input tap 965 41"]
  else [].

(** Where [click_element] taps when the matcher reports the element at
    [(center_x, center_y)]: 45 further right for the two coordinate fields. *)
Definition tap_command (element_name : string) (center_x center_y : Z)
    : string :=
  "input tap "
  +:+ pretty (if bool_decide (element_name ∈ ["coordX"; "coordY"])
              then center_x + 45 else center_x)
  +:+ " " +:+ pretty center_y.

(** ** More of [MinimalBot] *)

(** [MinimalBot.tap_screen]; the [duration] it sleeps is not modelled. *)
Definition tap_screen (x y : Z) : Py bool :=
  fn (try_except
        (b ← gets bot;
         (if negb (device b) then return_ false else mret tt);;
         let cmd := "input tap " +:+ pretty x +:+ " " +:+ pretty y in
         device_shell cmd;;
         sleep;;
         return_ true)
        (print "Tap error: ";;
         return_ false)).

(** ** [CityManager]: navigation in the city *)

(** [CityManager.is_in_city] *)
Definition is_in_city : Py bool :=
  fn (b ← gets bot;
      (if negb (device b) then return_ false else mret tt);;
      cfg ← gets config;
      match config_get cfg "map_button" with
      | None =>
          log "Map button config not found";;
          return_ false
      | Some map_button_config =>
          found ← call (detect_ui_element_in_area
                          (image_path map_button_config)
                          (search_area map_button_config)
                          (default 0.6%Q (threshold map_button_config)));
          match found with
          | Some _ => return_ true
          | None => return_ false
          end
      end).

Section navigation.

(** [time.time()], as a function of the number of device calls made. *)
Variable clock : nat → Q.

(** The methods below take the value of the field [self.last_reset] and
    return, with their result, its value when they end; [reset_to_city] is
    the only method that assigns it. *)

(** [CityManager.reset_to_city] *)
Definition reset_to_city (last_reset : Q) : Py (bool * Q) :=
  fn (log "Resetting position to city center...";;
      clicked ← call (click_element "map_button" default_max_attempts
                        default_threshold);
      (if negb clicked then
         log "Failed to click map button";;
         return_ (false, last_reset)
       else mret tt);;
      sleep;;
      clicked ← call (click_element "home_button" default_max_attempts
                        default_threshold);
      (if negb clicked then
         log "Failed to click home button";;
         return_ (false, last_reset)
       else mret tt);;
      sleep;;
      in_city ← call is_in_city;
      if in_city : bool then
        log "✓ Successfully reset to city";;
        t ← gets tick;
        let last_reset := clock t in
        return_ (true, last_reset)
      else
        log "✗ Failed to verify city position after reset";;
        return_ (false, last_reset)).

(** [CityManager.ensure_in_city] *)
Definition ensure_in_city (last_reset : Q) : Py (bool * Q) :=
  fn (in_city ← call is_in_city;
      (if in_city : bool then return_ (true, last_reset) else mret tt);;
      log "Not in city, attempting to reset position...";;
      r ← call (reset_to_city last_reset);
      return_ r).

(** [CityManager.go_to_research_area] *)
Definition go_to_research_area (last_reset : Q) : Py (bool * Q) :=
  fn (log "Going to research area...";;
      '(ok, last_reset) ← call (ensure_in_city last_reset);
      (if negb ok then return_ (false, last_reset) else mret tt);;
      clicked ← call (click_element "Castle" default_max_attempts
                        default_threshold);
      (if negb clicked then
         '(_, last_reset) ← call (reset_to_city last_reset);
         return_ (false, last_reset)
       else mret tt);;
      sleep;;
      clicked ← call (click_element "Castle" default_max_attempts
                        default_threshold);
      (if negb clicked then return_ (false, last_reset) else mret tt);;
      sleep;;
      clicked ← call (click_element "ResearchArea" default_max_attempts
                        default_threshold);
      (if negb clicked then return_ (false, last_reset) else mret tt);;
      log "✓ Successfully navigated to research area";;
      return_ (true, last_reset)).

(** [CityManager.go_to_dragon_panel] *)
Definition go_to_dragon_panel (last_reset : Q) : Py (bool * Q) :=
  fn (log "Going to dragon panel...";;
      '(ok, last_reset) ← call (ensure_in_city last_reset);
      (if negb ok then return_ (false, last_reset) else mret tt);;
      '(ok, last_reset) ← call (reset_to_city last_reset);
      (if negb ok then return_ (false, last_reset) else mret tt);;
      clicked ← call (click_element "Castle" default_max_attempts
                        default_threshold);
      (if negb clicked then return_ (false, last_reset) else mret tt);;
      sleep;;
      clicked ← call (click_element "DragonPanel" default_max_attempts
                        default_threshold);
      (if negb clicked then return_ (false, last_reset) else mret tt);;
      log "✓ Successfully navigated to dragon panel";;
      return_ (true, last_reset)).

(** [CityManager.go_to_shipment_collect] *)
Definition go_to_shipment_collect (last_reset : Q) : Py (bool * Q) :=
  fn (log "Going to shipment collect...";;
      '(ok, last_reset) ← call (ensure_in_city last_reset);
      (if negb ok then return_ (false, last_reset) else mret tt);;
      '(ok, last_reset) ← call (reset_to_city last_reset);
      (if negb ok then return_ (false, last_reset) else mret tt);;
      clicked ← call (click_element "GoldPickup" default_max_attempts
                        default_threshold);
      (if clicked : bool then
         log "✓ Clicked gold pickup";;
         sleep
       else
         log "Gold pickup not found, continuing...");;
      clicked ← call (click_element "DwelingArea" default_max_attempts
                        default_threshold);
      (if negb clicked then
         log "Failed to find dwelling area";;
         return_ (false, last_reset)
       else mret tt);;
      sleep;;
      clicked ← call (click_element "WareHouse" default_max_attempts
                        default_threshold);
      (if negb clicked then
         log "Failed to find warehouse";;
         return_ (false, last_reset)
       else mret tt);;
      sleep;;
      clicked ← call (click_element "ShipmentCollect" default_max_attempts
                        default_threshold);
      if clicked : bool then
        log "✓ Found and clicked shipment collect";;
        sleep;;
        clicked ← call (click_element "ShipmentClaim" default_max_attempts
                          default_threshold);
        (if clicked : bool then
           log "✓ Clicked shipment claim";;
           sleep;;
           clicked ← call (click_element "ShipmentContinue"
                             default_max_attempts default_threshold);
           if clicked : bool then
             log "✓ Clicked shipment continue";;
             sleep
           else mret tt
         else mret tt);;
        clicked ← call (click_element "BackButton" default_max_attempts
                          default_threshold);
        (if clicked : bool then
           log "✓ Clicked back button";;
           sleep
         else mret tt);;
        log "✓ Successfully completed shipment collect routine";;
        return_ (true, last_reset)
      else
        log "No shipment collect available";;
        clicked ← call (click_element "BackButton" default_max_attempts
                          default_threshold);
        (if clicked : bool then log "✓ Clicked back button" else mret tt);;
        return_ (false, last_reset)).

(** [CityManager.click_buildings_panel], [click_troops_panel] and
    [click_march_panel]: the same method for three panels; [what] is the word
    in the log line and [panel] the element. *)
Definition click_panel (what panel : string) (last_reset : Q)
    : Py (bool * Q) :=
  fn (log ("Clicking " +:+ what +:+ " panel...");;
      '(ok, last_reset) ← call (ensure_in_city last_reset);
      (if negb ok then return_ (false, last_reset) else mret tt);;
      clicked ← call (click_element panel default_max_attempts
                        default_threshold);
      return_ (clicked, last_reset)).

Definition click_buildings_panel : Q → Py (bool * Q) :=
  click_panel "buildings" "BuildingsPanel".

Definition click_troops_panel : Q → Py (bool * Q) :=
  click_panel "troops" "TroopsPanel".

Definition click_march_panel : Q → Py (bool * Q) :=
  click_panel "march" "MarchPanel".

(** The [tasks] of [run_periodic_tasks]. *)
Definition periodic_tasks : list (string * (Q → Py (bool * Q))) :=
  [ ("Shipment Collection", go_to_shipment_collect);
    ("Research Area Check", go_to_research_area);
    ("Dragon Panel Check", go_to_dragon_panel) ].

(** The body of the loop of [run_periodic_tasks]. An exception would leave
    the task with [last_reset] as the task left it; the handler here keeps
    the value from before the task, and is never reached (no task raises,
    see below). *)
Definition run_task (task : string * (Q → Py (bool * Q))) (last_reset : Q)
    : Body (unit * Q) (Ctl Q) :=
  let '(task_name, task_func) := task in
  try_except
    (log ("Executing: " +:+ task_name);;
     '(result, last_reset) ← call (task_func last_reset);
     (if result : bool then
        log ("✓ " +:+ task_name +:+ " completed successfully")
      else
        log ("✗ " +:+ task_name +:+ " failed"));;
     sleep;;
     mret (Go last_reset))
    (log ("✗ Error in " +:+ task_name +:+ ": ");;
     mret (Go last_reset)).

(** [CityManager.run_periodic_tasks] *)
Definition run_periodic_tasks (last_reset : Q) : Py (unit * Q) :=
  fn (log "Starting periodic city tasks...";;
      last_reset ← for_each periodic_tasks run_task last_reset;
      log "Periodic tasks completed";;
      mret (tt, last_reset)).

End navigation.

(** The clicks of a run: the element of each completed [click_element] call
    and what the call returned. *)
Definition clicks (evs : list Event) : list (string * option bool) :=
  (λ c, (c.1.1.1, c.2)) <$> element_clicks evs.

(** A computation that does not raise. *)
Definition calm {X} (exc : X → Prop) (m : World → X * World) : Prop :=
  ∀ w, ¬ exc (m w).1.

(** A world with every element of the city configured and always found. *)
Definition city_world : World :=
  {| bot := {| device := true; gui_detector := true |};
     config := {| ui_elements := Some (list_to_map
       ((λ name, (name, plain_element (name +:+ ".png")))
        <$> ["map_button"; "home_button"; "Castle"; "ResearchArea";
             "DragonPanel"; "GoldPickup"; "DwelingArea"; "WareHouse";
             "ShipmentCollect"; "ShipmentClaim"; "ShipmentContinue";
             "BackButton"; "BuildingsPanel"; "TroopsPanel"; "MarchPanel"])) |};
     env := {| screen_match := λ _ _ _ _, Some (100, 50);
               shell_raises := λ _ _, false |};
     tick := 0; explored_file := None; trace := [] |}.

(** A completed click on [name] that succeeded, and one that failed. *)
Definition clicked (name : string) : string * option bool := (name, Some true).
Definition missed (name : string) : string * option bool := (name, Some false).


(** [city_world] without a device. *)
Definition offline_world : World :=
  {| bot := {| device := false; gui_detector := true |};
     config := config city_world; env := env city_world;
     tick := 0; explored_file := None; trace := [] |}.
(** ** Traces: how computations extend the world *)

Section extends_facts.

Lemma extends_refl w : extends w w [].
Proof. split; by rewrite ?app_nil_r. Qed.

Lemma extends_trans w1 w2 w3 evs1 evs2 :
  extends w1 w2 evs1 → extends w2 w3 evs2 → extends w1 w3 (evs1 ++ evs2).
Proof.
  intros [] []; split; try congruence.
  - rewrite app_assoc; congruence.
  - unfold last_save in *. rewrite foldl_app. congruence.
Qed.

Lemma extends_new_events w w' evs : extends w w' evs → new_events w w' = evs.
Proof.
  intros [_ _ _ Htrace _]. unfold new_events. rewrite Htrace.
  by rewrite drop_app_length.
Qed.

Lemma last_save_quiet f evs :
  Forall (λ e, is_save e = false) evs → last_save f evs = f.
Proof.
  unfold last_save. revert f.
  induction evs as [|e evs IH]; intros f; [done|].
  rewrite Forall_cons. intros [He Hevs]. simpl.
  rewrite IH by done. by destruct e.
Qed.

End extends_facts.

Section emits_rules.
Context {R : Type} (P : Event → Prop).

Lemma emits_mono {X} (Q : Event → Prop) (m : World → X * World) :
  (∀ e, Q e → P e) → emits Q m → emits P m.
Proof.
  intros HQ Hm w. destruct (Hm w) as (evs & ? & ?).
  exists evs; split; [done|]. eapply Forall_impl; eauto.
Qed.

Lemma emits_pure {A} (a : A) : emits P (mret (M:=Body R) a).
Proof. intros w. exists []. split; [apply extends_refl | constructor]. Qed.

Lemma emits_return {A} (r : R) : emits P (return_ (A:=A) r).
Proof. intros w. exists []. split; [apply extends_refl | constructor]. Qed.

Lemma emits_raise {A} e : emits P (raise (R:=R) (A:=A) e).
Proof. intros w. exists []. split; [apply extends_refl | constructor]. Qed.

Lemma emits_gets {A} (f : World → A) : emits P (gets (R:=R) f).
Proof. intros w. exists []. split; [apply extends_refl | constructor]. Qed.

Lemma emits_advance : emits P (advance (R:=R)).
Proof.
  intros w. exists []. split; [|constructor].
  split; simpl; by rewrite ?app_nil_r.
Qed.

Lemma emits_sleep : emits P (sleep (R:=R)).
Proof. apply (emits_pure tt). Qed.

Lemma emits_emit e : is_save e = false → P e → emits P (emit (R:=R) e).
Proof.
  intros Hs He w. exists [e]. split; [|by repeat constructor].
  split; simpl; try done. by destruct e.
Qed.

Lemma emits_log msg : P (EvLog msg) → emits P (log (R:=R) msg).
Proof. by apply emits_emit. Qed.

Lemma emits_print msg : P (EvPrint msg) → emits P (print (R:=R) msg).
Proof. by apply emits_emit. Qed.

Lemma emits_write_file l : P (EvSave l) → emits P (write_file (R:=R) l).
Proof.
  intros He w. exists [EvSave l]. split; [|by repeat constructor].
  by split.
Qed.

Lemma emits_bind {A B} (m : Body R A) (k : A → Body R B) :
  emits P m → (∀ a, emits P (k a)) → emits P (m ≫= k).
Proof.
  intros Hm Hk w. unfold mbind, Body_bind, bind.
  destruct (Hm w) as (evs1 & Hext1 & HP1).
  destruct (m w) as [[a|r|e] w1]; simpl in *; [|by eauto..].
  destruct (Hk a w1) as (evs2 & Hext2 & HP2).
  exists (evs1 ++ evs2). split; [by eapply extends_trans|].
  by apply Forall_app.
Qed.

Lemma emits_try_except {A} (body handler : Body R A) :
  emits P body → emits P handler → emits P (try_except body handler).
Proof.
  intros Hb Hh w. unfold try_except.
  destruct (Hb w) as (evs1 & Hext1 & HP1).
  destruct (body w) as [[a|r|e] w1]; simpl in *; [by eauto..|].
  destruct (Hh w1) as (evs2 & Hext2 & HP2).
  exists (evs1 ++ evs2). split; [by eapply extends_trans|].
  by apply Forall_app.
Qed.

Lemma emits_fn (body : Body R R) : emits P body → emits P (fn body).
Proof.
  intros Hb w. unfold fn. destruct (Hb w) as (evs & Hext & HP).
  destruct (body w) as [[a|r|e] w1]; simpl in *; eauto.
Qed.

Lemma emits_call {A} (m : Py A) : emits P m → emits P (call (R:=R) m).
Proof.
  intros Hm w. unfold call. destruct (Hm w) as (evs & Hext & HP).
  destruct (m w) as [[a|e] w1]; simpl in *; eauto.
Qed.

Lemma emits_for_each {X S} (l : list X) (body : X → S → Body R (Ctl S)) s :
  (∀ x s, emits P (body x s)) → emits P (for_each l body s).
Proof.
  intros Hbody. revert s. induction l as [|x l IH]; intros s; simpl.
  - apply (emits_pure s).
  - apply (emits_bind (body x s)); [done|]. intros [s'|s']; [done|].
    apply (emits_pure s').
Qed.

End emits_rules.

Lemma emits_traced (P : Event → Prop) c (m : Py bool) :
(∀ r, P (EvCall c r)) → emits P m → emits P (traced c m).
Proof.
intros Hc Hm w. unfold traced. destruct (Hm w) as (evs & Hext & HP).
destruct (m w) as [[a|e] w1]; simpl in *.
- exists (evs ++ [EvCall c (Some a)]). split.
  + eapply extends_trans; [done|]. by split.
  + apply Forall_app. split; [done|]. by repeat constructor.
- exists (evs ++ [EvCall c None]). split.
  + eapply extends_trans; [done|]. by split.
  + apply Forall_app. split; [done|]. by repeat constructor.
Qed.

(** Proves [emits P m] by following the structure of [m]; [P] has to hold of
    each event [m] can emit. *)
Ltac emits_step :=
  lazymatch goal with
  | |- emits _ (mbind _ _) => apply emits_bind
  | |- emits _ (mret _) => apply emits_pure
  | |- emits _ (return_ _) => apply emits_return
  | |- emits _ (raise _) => apply emits_raise
  | |- emits _ (gets _) => apply emits_gets
  | |- emits _ advance => apply emits_advance
  | |- emits _ sleep => apply emits_sleep
  | |- emits _ (log _) => apply emits_log
  | |- emits _ (print _) => apply emits_print
  | |- emits _ (emit _) => apply emits_emit
  | |- emits _ (write_file _) => apply emits_write_file
  | |- emits _ (try_except _ _) => apply emits_try_except
  | |- emits _ (fn _) => apply emits_fn
  | |- emits _ (call _) => apply emits_call
  | |- emits _ (traced _ _) => apply emits_traced
  | |- emits _ (for_each _ _ _) => apply emits_for_each
  | |- emits _ (if ?b then _ else _) => destruct b
  | |- emits _ (match ?x with _ => _ end) => destruct x
  | |- ∀ _, _ => intros
  end.
Ltac emits_auto := repeat emits_step; try done.

Lemma plain_event_quiet e : plain_event e → quiet_event e.
Proof. by destruct e. Qed.

Lemma device_shell_emits {R} cmd : emits plain_event (device_shell (R:=R) cmd).
Proof. unfold device_shell. emits_auto. Qed.

Lemma detect_emits image area thr :
  emits plain_event (detect_ui_element_in_area image area thr).
Proof. unfold detect_ui_element_in_area. emits_auto. Qed.

Lemma click_coordinate_emits x y : emits plain_event (click_coordinate x y).
Proof.
  unfold click_coordinate. emits_auto; by apply device_shell_emits.
Qed.

Lemma click_attempt_emits name ec max thr attempt u :
  emits plain_event (click_attempt name ec max thr attempt u).
Proof.
  unfold click_attempt. emits_auto;
    first [apply detect_emits | apply click_coordinate_emits].
Qed.

Lemma traced_inner (P : Event → Prop) c (m : Py bool) :
  emits P m →
  ∀ w, ∃ inner,
    extends w (traced c m w).2 (inner ++ [EvCall c (result_of (traced c m w).1)])
    ∧ Forall P inner.
Proof.
  intros Hm w. unfold traced. destruct (Hm w) as (evs & Hext & HP).
  destruct (m w) as [[a|e] w1]; cbn [fst snd result_of] in *.
  - exists evs. split; [|done]. eapply extends_trans; [done|]. by split.
  - exists evs. split; [|done]. eapply extends_trans; [done|]. by split.
Qed.

Lemma traced_one_call c (m : Py bool) :
  emits plain_event m → one_call c (traced c m).
Proof. intros Hm w. by apply traced_inner. Qed.

Lemma click_element_one_call name max thr :
  one_call (CClickElement name max thr) (click_element name max thr).
Proof.
  unfold click_element. apply traced_one_call. emits_auto.
  apply click_attempt_emits.
Qed.

Lemma input_coordinate_one_call coord_type value :
  one_call (CInputCoordinate coord_type value)
    (input_coordinate coord_type value).
Proof.
  unfold input_coordinate. apply traced_one_call.
  emits_auto; apply device_shell_emits.
Qed.

Lemma one_call_quiet c m :
  (∀ r, quiet_event (EvCall c r)) → one_call c m → emits quiet_event m.
Proof.
  intros Hc Hm w. destruct (Hm w) as (inner & Hext & Hplain).
  eexists. split; [done|]. apply Forall_app. split.
  - eapply Forall_impl; [done|]. apply plain_event_quiet.
  - by repeat constructor.
Qed.

Lemma calls_app evs1 evs2 : calls (evs1 ++ evs2) = calls evs1 ++ calls evs2.
Proof. apply omap_app. Qed.

Lemma calls_plain evs : Forall plain_event evs → calls evs = [].
Proof.
  induction 1 as [|e evs He _ IH]; [done|].
  destruct e; try done; exact IH.
Qed.

Lemma probes_app evs1 evs2 : probes (evs1 ++ evs2) = probes evs1 ++ probes evs2.
Proof. apply omap_app. Qed.

Lemma probes_quiet evs : Forall quiet_event evs → probes evs = [].
Proof.
  induction 1 as [|e evs He _ IH]; [done|].
  destruct e as [| | | | |[]]; try done; exact IH.
Qed.

(** Runs the monad's combinators on an explicit world. *)
Ltac run_py :=
  cbv beta iota zeta delta
    [fn call traced mbind mret Body_bind Body_ret PyMonad.bind pure return_
     raise try_except gets emit advance sleep write_file log print
     device_shell bot config env tick explored_file trace device
     gui_detector fst snd negb].

(** The same, leaving calls of other methods and of the device folded. *)
Ltac run_top :=
  cbv beta iota zeta delta
    [fn call traced mbind mret Body_bind Body_ret PyMonad.bind pure return_
     raise try_except gets emit advance sleep write_file log print fst snd
     negb];
  cbn [bot config env tick explored_file trace device gui_detector].

Lemma device_shell_run {R} cmd w :
  ∃ evs, extends w (device_shell (R:=R) cmd w).2 evs
    ∧ Forall plain_event evs
    ∧ ((device_shell (R:=R) cmd w).1 = Next ()
       ∨ ∃ e, (device_shell (R:=R) cmd w).1 = Exc e).
Proof.
  destruct (device_shell_emits (R:=R) cmd w) as (evs & Hext & Hplain).
  exists evs. split; [done|]. split; [done|].
  clear. unfold device_shell. destruct w as [[dev gui] cfg e t f tr]. run_py.
  destruct dev; [|by eauto].
  destruct (shell_raises e t cmd); by eauto.
Qed.

(** ** [click_element] *)

(** Closes [extends w w' ?evs] for explicit worlds, reading [?evs] off the
    trace of [w']. *)
Ltac solve_extends :=
  split; cbn [bot config env tick explored_file trace];
  [ reflexivity | reflexivity | reflexivity
  | rewrite <- ?app_assoc; reflexivity
  | reflexivity ].

(** Case analysis on the oracles and tests a run is stuck on. *)
Ltac run_case :=
  match goal with
  | |- context [screen_match ?e ?t ?i ?a ?q] =>
      destruct (screen_match e t i a q) as [[??]|] eqn:?
  | |- context [shell_raises ?e ?t ?c] => destruct (shell_raises e t c) eqn:?
  | |- context [bool_decide ?P] => destruct (bool_decide P) eqn:?
  end.
Ltac run_cases := repeat (run_case; run_py).

(** A [Forall] over an explicit list of events, and a log message in one. *)
Ltac solve_Forall :=
  solve [repeat first [apply List.Forall_nil
                      | apply List.Forall_cons; [simpl; tauto|]]].
Ltac find_log :=
  eexists; repeat first [apply list_elem_of_here | apply list_elem_of_further].

Lemma click_attempt_spec name ec max thr attempt w :
  ∃ evs, extends w (click_attempt name ec max thr attempt () w).2 evs
    ∧ match (click_attempt name ec max thr attempt () w).1 with
      | Next _ =>
          detections evs
          = [(image_path ec, search_area ec, default thr (threshold ec), None)]
          ∧ Forall (λ e, ¬ shell_failed e) evs
      | Ret b =>
          (∃ c, detections evs
                = [(image_path ec, search_area ec,
                    default thr (threshold ec), Some c)])
          ∧ (if b then Forall (λ e, ¬ shell_failed e) evs
             else ∃ msg, EvLog msg ∈ evs)
      | Exc _ => False
      end.
Proof.
  unfold click_attempt, detect_ui_element_in_area, click_coordinate.
  destruct w as [[dev gui] cfg e t f tr].
  destruct dev, gui; run_py; run_cases.
  all: eexists; (split; [solve_extends|]).
  all: cbn [app detections omap]; (split; [by eauto|]).
  all: try solve_Forall.
  all: find_log.
Qed.

Lemma click_loop_spec name ec max thr l w :
  ∃ evs, extends w (for_each l (click_attempt name ec max thr) () w).2 evs
    ∧ (length (detections evs) ≤ length l)%nat
    ∧ Forall (detection_for ec thr) (detections evs)
    ∧ match (for_each l (click_attempt name ec max thr) () w).1 with
      | Next _ =>
          Forall (λ d, d.2 = None) (detections evs)
          ∧ Forall (λ e, ¬ shell_failed e) evs
      | Ret b =>
          (∃ d, d ∈ detections evs ∧ d.2 ≠ None)
          ∧ (if b then Forall (λ e, ¬ shell_failed e) evs
             else ∃ msg, EvLog msg ∈ evs)
      | Exc _ => False
      end.
Proof.
  revert w. induction l as [|attempt l IH]; intros w.
  { exists []. split; [apply extends_refl|]. simpl. by repeat constructor. }
  cbn [for_each]. unfold bind.
  destruct (click_attempt_spec name ec max thr attempt w) as (evs1 & Hext1 & H1).
  destruct (click_attempt name ec max thr attempt () w) as [[c|b|e] w1];
    cbn [fst snd] in *; [| |done].
  - (* not found: the loop goes on, or would leave *)
    destruct H1 as [Hd1 Hs1].
    assert (Forall (detection_for ec thr) (detections evs1)
            ∧ Forall (λ d, d.2 = None) (detections evs1)) as [Hf1 Hn1].
    { rewrite Hd1. by repeat constructor. }
    destruct c as [[]|[]].
    + destruct (IH w1) as (evs2 & Hext2 & Hlen & Hfor & H2).
      exists (evs1 ++ evs2). split; [by eapply extends_trans|].
      unfold detections in *. rewrite omap_app, length_app, Hd1.
      split; [simpl; lia|]. split; [by apply Forall_app; rewrite <- Hd1|].
      destruct (for_each l _ () w1) as [[[]|b|e] w2]; cbn [fst snd] in *;
        [| |done].
      * destruct H2. rewrite <- Hd1. by rewrite !Forall_app.
      * destruct H2 as [(d & Hd & Hdn) H2]. split.
        { exists d. split; [|done]. apply elem_of_app. by right. }
        destruct b; [by apply Forall_app|].
        destruct H2 as [msg ?]. exists msg. apply elem_of_app. by right.
    + exists evs1. split; [done|]. rewrite Hd1. cbn [fst snd length].
      split; [lia|]. rewrite <- Hd1. done.
  - (* found: the loop returns *)
    destruct H1 as [[c Hd1] H1].
    exists evs1. split; [done|]. rewrite Hd1. cbn [length].
    split; [lia|]. split; [by repeat constructor|].
    split; [|done]. eexists. split; [apply list_elem_of_here|done].
Qed.

(** The body of [click_element], before the call is recorded. *)
Lemma click_element_spec name max thr w :
  ∃ b inner,
    (click_element name max thr w).1 = Val b
    ∧ extends w (click_element name max thr w).2
        (inner ++ [EvCall (CClickElement name max thr) (Some b)])
    ∧ Forall plain_event inner
    ∧ (length (detections inner) ≤ Z.to_nat max)%nat
    ∧ (∀ d, d ∈ detections inner →
         ∃ ec, config_get (config w) name = Some ec ∧ detection_for ec thr d)
    ∧ (b = false → ∃ msg, EvLog msg ∈ inner)
    ∧ (device (bot w) = false → b = false)
    ∧ (config_get (config w) name = None → b = false)
    ∧ (Forall (λ d, d.2 = None) (detections inner) → b = false)
    ∧ (Exists shell_failed inner → b = false).
Proof.
  unfold click_element.
  destruct w as [[dev gui] cfg e t f tr]. run_py.
  destruct dev.
  2:{ exists false, [EvLog "No device connected"].
      split; [done|].
      split; [solve_extends|]. split; [solve_Forall|].
      simpl detections; cbn [length]. split; [lia|].
      split; [by intros ? ?%elem_of_nil|]. split; [intros _; find_log|].
      done. }
  destruct (config_get cfg name) as [ec|] eqn:Hcfg.
  2:{ exists false,
        [EvLog ("Element '" +:+ name +:+ "' not found in config")].
      split; [done|].
      split; [solve_extends|]. split; [solve_Forall|].
      simpl detections; cbn [length]. split; [lia|].
      split; [by intros ? ?%elem_of_nil|]. split; [intros _; find_log|].
      done. }
  match goal with
  | |- context [for_each ?l ?body () ?w] =>
      destruct (click_loop_spec name ec max thr l w)
        as (evs1 & Hext1 & Hlen & Hfor & H1);
      destruct (emits_for_each (R:=bool) plain_event l body ()
                  (click_attempt_emits name ec max thr) w)
        as (evs1' & Hext1' & Hq1);
      destruct (for_each l body () w) as [[[]|b|ex] w1]
  end; cbn [fst snd] in *; [| |done].
  all: assert (evs1' = evs1) as ->
         by (rewrite <- (extends_new_events _ _ _ Hext1');
             apply extends_new_events, Hext1).
  all: rewrite length_seqZ in Hlen.
  all: assert (∀ d, d ∈ detections evs1 →
                ∃ ec', Some ec = Some ec' ∧ detection_for ec' thr d)
         by (intros d Hd; exists ec; split; [done|];
             by eapply Forall_forall in Hfor).
  - (* never detected *)
    destruct H1 as [Hnone Hshell]. exists false.
    exists (evs1 ++ [EvLog ("✗ Element '" +:+ name +:+ "' not found after "
                            +:+ pretty max +:+ " attempts")]).
    split; [done|]. split.
    { rewrite <- (app_assoc evs1). eapply extends_trans; [exact Hext1|].
      destruct w1; solve_extends. }
    split; [apply Forall_app; split; [done|solve_Forall]|].
    unfold detections in *. rewrite omap_app. cbn [omap]. rewrite app_nil_r.
    split; [done|]. split; [done|].
    split; [intros _; eexists; apply elem_of_app; right;
            apply list_elem_of_here|].
    done.
  - (* detected: clicked or not *)
    destruct H1 as [(d & Hd & Hdn) H1]. exists b, evs1.
    split; [done|]. split.
    { eapply extends_trans; [exact Hext1|]. destruct w1; solve_extends. }
    split; [done|]. split; [done|]. split; [done|].
    split; [by intros ->|]. split; [done|]. split; [done|].
    split.
    + intros Hnone. eapply Forall_forall in Hnone; [|done]. done.
    + intros Hex. destruct b; [|done].
      apply Exists_exists in Hex as (ev & Hev & Hfail).
      eapply Forall_forall in H1; [|done]. done.
Qed.

(** C9: [click_element] asks the matcher at most [max_attempts] times (4 by
    default), each time for the configured image of the requested element,
    and never raises. It returns [False], after logging a message, when no
    device is connected, when the element is not in the configuration, when
    none of its detection calls found the element, and when the tap on the
    detected element failed. *)
Theorem click_element_attempts_and_failures
    (w : World) (element_name : string) (max_attempts : Z) (thr : Q) :
  let r := click_element element_name max_attempts thr w in
  let evs := new_events w r.2 in
  (length (detections evs) ≤ Z.to_nat max_attempts)%nat
  ∧ Z.to_nat default_max_attempts = 4%nat
  ∧ (∀ d, d ∈ detections evs →
       ∃ ec, config_get (config w) element_name = Some ec
             ∧ detection_for ec thr d)
  ∧ ∃ b : bool,
      r.1 = Val b
      ∧ (b = false → ∃ msg, EvLog msg ∈ evs)
      ∧ (device (bot w) = false → b = false)
      ∧ (config_get (config w) element_name = None → b = false)
      ∧ (Forall (λ d, d.2 = None) (detections evs) → b = false)
      ∧ (Exists shell_failed evs → b = false).
Proof.
  intros r evs. subst r evs.
  destruct (click_element_spec element_name max_attempts thr w)
    as (b & inner & Hres & Hext & _ & Hlen & Hdet & Hlog & Hdev & Hcfg
        & Hnone & Hfail).
  rewrite (extends_new_events _ _ _ Hext).
  assert (detections (inner ++ [EvCall (CClickElement element_name
            max_attempts thr) (Some b)]) = detections inner) as ->.
  { unfold detections. rewrite omap_app. cbn [omap]. apply app_nil_r. }
  split; [done|]. split; [done|]. split; [done|].
  exists b. split; [done|]. split.
  { intros Hb. destruct (Hlog Hb) as [msg ?]. exists msg.
    apply elem_of_app. by left. }
  split; [done|]. split; [done|]. split; [done|].
  intros [Hex|Hex]%Exists_app; [by apply Hfail|].
  apply Exists_cons in Hex as [[]|Hex]. by apply Exists_nil in Hex.
Qed.

(** ** [count_available_marches] *)

Lemma count_available_marches_result w :
  (count_available_marches w).1 = Val (counted_marches w).
Proof.
  unfold count_available_marches, counted_marches, indicator_found,
    detect_ui_element_in_area.
  destruct w as [[dev gui] cfg e t f tr]. run_py.
  destruct dev; [|done].
  destruct (config_get cfg "MarchNb1") as [ec1|],
    (config_get cfg "MarchNb2") as [ec2|]; simpl; run_py;
    destruct gui;
    repeat match goal with
           | |- context [screen_match ?e ?t ?i ?a ?q] =>
               destruct (screen_match e t i a q) as [[??]|]
           end.
  all: try done.
Qed.

Lemma counted_marches_range w : 0 ≤ counted_marches w ≤ 2.
Proof.
  unfold counted_marches.
  repeat case_match; lia.
Qed.

Lemma count_available_marches_emits :
  emits (λ e, is_log e ∨ is_detect e) count_available_marches.
Proof.
  unfold count_available_marches, detect_ui_element_in_area.
  emits_auto; simpl; auto.
Qed.

(** C8: whatever the configuration (entries for [MarchNb1] and [MarchNb2]
    present or missing), the device state and the detection outcomes,
    [count_available_marches] returns an integer between 0 and 2. *)
Theorem count_available_marches_in_range (w : World) :
  ∃ n : Z, (count_available_marches w).1 = Val n ∧ 0 ≤ n ≤ 2.
Proof.
  exists (counted_marches w). split.
  - apply count_available_marches_result.
  - apply counted_marches_range.
Qed.

(** C2: what [count_available_marches] returns on the two inputs that tell
    "found" from "absent". With both indicators detected it logs that both
    slots are available and returns 0; with neither detected it logs that no
    slot is available and returns 2. The count goes down by one for each
    indicator that is found, not for each one that is absent. *)
Theorem count_available_marches_subtracts_found :
  (count_available_marches all_found_world).1 = Val 0
  ∧ trace (count_available_marches all_found_world).2
    = [ EvDetect "march1.png" None 0.5%Q (Some (100, 50));
        EvLog "✓ March1 slot available";
        EvDetect "march2.png" None 0.6%Q (Some (100, 50));
        EvLog "✓ March2 slot available";
        EvLog "Total available marches: 0" ]
  ∧ (count_available_marches none_found_world).1 = Val 2
  ∧ trace (count_available_marches none_found_world).2
    = [ EvDetect "march1.png" None 0.5%Q None;
        EvLog "✗ March1 slot not available";
        EvDetect "march2.png" None 0.6%Q None;
        EvLog "✗ March2 slot not available";
        EvLog "Total available marches: 2" ].
Proof. by vm_compute. Qed.

(** ** The catalog *)

Lemma NoDup_fmap_eq {A B} (f : A → B) (l : list A) x y :
  NoDup (f <$> l) → x ∈ l → y ∈ l → f x = f y → x = y.
Proof.
  induction l as [|a l IH]; intros Hnd Hx Hy Hf; [by apply elem_of_nil in Hx|].
  apply NoDup_cons in Hnd as [Ha Hnd].
  apply elem_of_cons in Hx as [->|Hx], Hy as [->|Hy]; [done| | |by apply IH].
  - destruct Ha. rewrite Hf. by apply list_elem_of_fmap_2.
  - destruct Ha. rewrite <- Hf. by apply list_elem_of_fmap_2.
Qed.

Lemma elem_of_catalog_entries level areas area_name coordinates coord :
  (level, areas) ∈ _load_ruin_coordinates →
  (area_name, coordinates) ∈ areas →
  coord ∈ coordinates →
  (level, area_name, coord) ∈ catalog_entries.
Proof.
  intros Hlevel Harea Hcoord. unfold catalog_entries.
  apply list_elem_of_bind. exists (level, areas). split; [|done].
  apply list_elem_of_bind. exists (area_name, coordinates). split; [|done].
  apply list_elem_of_bind. exists coord. split; [|done].
  apply list_elem_of_here.
Qed.

Lemma catalog_entries_coordinates : catalog_entries.*2 = ruin_coordinates.
Proof. by vm_compute. Qed.

(** C7: no coordinate occurs twice in the catalog: the coordinates, taken
    level by level and area by area, form a list without duplicates, so a
    coordinate listed under an area of a level is listed under no other area
    and no other level. *)
Theorem ruin_coordinates_no_duplicates :
  NoDup ruin_coordinates
  ∧ ∀ level areas area_name coordinates level' areas' area_name' coordinates'
      coord,
      (level, areas) ∈ _load_ruin_coordinates →
      (area_name, coordinates) ∈ areas →
      coord ∈ coordinates →
      (level', areas') ∈ _load_ruin_coordinates →
      (area_name', coordinates') ∈ areas' →
      coord ∈ coordinates' →
      level = level' ∧ area_name = area_name'.
Proof.
  assert (NoDup ruin_coordinates) as Hnd
    by (apply (bool_decide_unpack _); by vm_compute).
  split; [done|].
  intros level areas area_name coordinates level' areas' area_name'
    coordinates' coord Hl Ha Hc Hl' Ha' Hc'.
  rewrite <- catalog_entries_coordinates in Hnd.
  pose proof (elem_of_catalog_entries _ _ _ _ _ Hl Ha Hc) as He.
  pose proof (elem_of_catalog_entries _ _ _ _ _ Hl' Ha' Hc') as He'.
  pose proof (NoDup_fmap_eq snd _ _ _ Hnd He He' eq_refl) as Heq.
  by simplify_eq.
Qed.

Lemma ruin_coordinates_length : length ruin_coordinates = 690%nat.
Proof. by vm_compute. Qed.

(** ** [search_ruin_at_coordinate] *)

Lemma never_falls_through_bind {R A B} (m : Body R A) (k : A → Body R B) :
  (∀ a, never_falls_through (k a)) → never_falls_through (m ≫= k).
Proof.
  intros Hk w b. unfold mbind, Body_bind, bind.
  destruct (m w) as [[a|r|e] w1]; [apply Hk|done..].
Qed.

Lemma never_falls_through_return {R A} (r : R) :
  never_falls_through (return_ (A:=A) r).
Proof. by intros w a. Qed.

Lemma never_falls_through_seq {R A B} (m : Body R A) (k k' : Body R B) w :
  never_falls_through m → (m;; k) w = (m;; k') w.
Proof.
  intros Hm. unfold mbind, Body_bind, bind. specialize (Hm w).
  destruct (m w) as [[a|r|e] w1]; [by destruct (Hm a)|done..].
Qed.

Lemma search_ruin_head_never_falls_through x y :
  never_falls_through (search_ruin_head x y).
Proof.
  unfold search_ruin_head.
  repeat (apply never_falls_through_bind; intros).
  match goal with |- context [if ?b then _ else _] => destruct b end;
    repeat (apply never_falls_through_bind; intros);
    apply never_falls_through_return.
Qed.

Lemma click_element_run name max thr w :
  ∃ b inner,
    (click_element name max thr w).1 = Val b
    ∧ extends w (click_element name max thr w).2
        (inner ++ [EvCall (CClickElement name max thr) (Some b)])
    ∧ Forall plain_event inner.
Proof.
  destruct (click_element_spec name max thr w) as (b & inner & ? & ? & ? & _).
  by exists b, inner.
Qed.

(** Proves [extends w w' ?evs] from the steps that led from [w] to [w']. *)
Ltac chain :=
  lazymatch goal with
  | |- extends ?w ?w' _ =>
      first
        [ apply extends_refl
        | lazymatch goal with
          | H : extends ?wm w' _ |- _ =>
              eapply (extends_trans _ wm); [chain | exact H]
          end
        | lazymatch w' with
          | {| bot := bot ?wm; config := _; env := _; tick := _;
               explored_file := _; trace := _ |} =>
              eapply (extends_trans _ wm); [chain | solve_extends]
          end ]
  end.

(** One step of a run: case analysis on a call's result, by its lemma. *)
Ltac step_input :=
  match goal with
  | |- context [input_coordinate ?ct ?v ?w] =>
      let inner := fresh "inner" in
      let Hext := fresh "Hext" in
      let Hp := fresh "Hplain" in
      destruct (input_coordinate_one_call ct v w) as (inner & Hext & Hp);
      destruct (input_coordinate ct v w) as [[[]|?] ?];
      cbn [fst snd result_of] in Hext; run_top
  end.
Ltac step_shell :=
  match goal with
  | |- context [@device_shell ?R ?cmd ?w] =>
      let evs := fresh "evs" in
      let Hext := fresh "Hext" in
      let Hp := fresh "Hplain" in
      let Hr := fresh "Hr" in
      destruct (device_shell_run (R:=R) cmd w)
        as (evs & Hext & Hp & [Hr|[? Hr]]);
      destruct (@device_shell R cmd w) as [? ?];
      cbn [fst snd] in Hext, Hr; rewrite Hr; clear Hr; run_top
  end.
Ltac step_click :=
  match goal with
  | |- context [click_element ?n ?m ?t ?w] =>
      let b := fresh "b" in
      let inner := fresh "inner" in
      let Hext := fresh "Hext" in
      let Hp := fresh "Hplain" in
      let Hr := fresh "Hr" in
      destruct (click_element_run n m t w) as (b & inner & Hr & Hext & Hp);
      destruct (click_element n m t w) as [? ?];
      cbn [fst snd] in Hext, Hr; rewrite Hr; clear Hr; destruct b; run_top
  end.

(** Membership in an explicit list. *)
Ltac set_mem :=
  repeat first [apply list_elem_of_here | apply list_elem_of_further].

Lemma search_ruin_shape x y w :
  let r := search_ruin_at_coordinate x y w in
  let cs := calls (new_events w r.2) in
  let X := CInputCoordinate "X" (pretty x) in
  let Y := CInputCoordinate "Y" (pretty y) in
  let E := CClickElement "exploreNew" 1 0.4%Q in
  let S := CSearchRuin x y in
  (∃ e, r.1 = Err e ∧ cs = [(X, None); (S, None)])
  ∨ (r.1 = Val false ∧ cs = [(X, Some false); (S, Some false)])
  ∨ (∃ e, r.1 = Err e ∧ cs = [(X, Some true); (Y, None); (S, None)])
  ∨ (r.1 = Val false
     ∧ cs = [(X, Some true); (Y, Some false); (S, Some false)])
  ∨ (∃ e, r.1 = Err e ∧ cs = [(X, Some true); (Y, Some true); (S, None)])
  ∨ (∃ b, r.1 = Val b
       ∧ cs = [(X, Some true); (Y, Some true); (E, Some b); (S, Some b)]).
Proof.
  intros r cs X Y E S. subst r cs.
  unfold search_ruin_at_coordinate.
  assert (∀ m1 m2 : Py bool, m1 w = m2 w →
            traced S m1 w = traced S m2 w) as Htr
    by (intros m1 m2 Hm; unfold traced; by rewrite Hm).
  rewrite (Htr _ (fn (search_ruin_head x y;; return_ false))).
  2:{ unfold fn.
      by rewrite (never_falls_through_seq _ _ (return_ false) w
                    (search_ruin_head_never_falls_through x y)). }
  clear Htr. unfold search_ruin_head. run_top.
  step_input; [step_input; [step_shell; [step_shell; [step_click|]|]|..]|..].
  all: match goal with
       | |- context [new_events ?w ?w'] =>
           let H := fresh in
           eassert (extends w w' _) as H by chain;
           rewrite (extends_new_events _ _ _ H); clear H
       end.
  all: rewrite ?calls_app.
  all: repeat match goal with
         | H : Forall plain_event ?l |- context [calls ?l] =>
             rewrite (calls_plain l H)
         end.
  all: unfold calls; cbn [omap app]; subst X Y E S.
  all: eauto 20.
Qed.

(** C10: no path through [search_ruin_at_coordinate] falls through the
    [if]/[else] on the first [exploreNew] click, so the statements after it
    (the loop over the ruin images and the second [exploreNew] click) never
    run: replacing them by anything leaves the method unchanged, the only
    [click_element] call ever made is the one for [exploreNew] with one
    attempt and threshold 0.4, made at most once, and the method returns
    [True] exactly when both coordinate inputs and that click returned
    [True]. *)
Theorem search_ruin_variant_block_unreachable (x y : Z) (w : World) :
  let r := search_ruin_at_coordinate x y w in
  let cs := calls (new_events w r.2) in
  never_falls_through (search_ruin_head x y)
  ∧ (∀ k : Body bool bool,
       traced (CSearchRuin x y) (fn (search_ruin_head x y;; k)) w = r)
  ∧ (∀ name n thr b,
       (CClickElement name n thr, b) ∈ cs →
       name = "exploreNew" ∧ n = 1 ∧ thr = 0.4%Q)
  ∧ (length (element_clicks (new_events w r.2)) ≤ 1)%nat
  ∧ (r.1 = Val true ↔
       (CInputCoordinate "X" (pretty x), Some true) ∈ cs
       ∧ (CInputCoordinate "Y" (pretty y), Some true) ∈ cs
       ∧ (CClickElement "exploreNew" 1 0.4%Q, Some true) ∈ cs).
Proof.
  intros r cs.
  split; [apply search_ruin_head_never_falls_through|].
  split.
  { intros k. subst r. unfold search_ruin_at_coordinate, traced, fn.
    by rewrite (never_falls_through_seq _ k search_ruin_tail w
                  (search_ruin_head_never_falls_through x y)). }
  subst r cs. unfold element_clicks.
  pose proof (search_ruin_shape x y w) as Hshape. cbv zeta in Hshape.
  destruct Hshape
    as [(e & Hr & Hcs)|[[Hr Hcs]|[(e & Hr & Hcs)|[[Hr Hcs]|[(e & Hr & Hcs)
        |(b & Hr & Hcs)]]]]];
    rewrite Hr, Hcs; clear Hr Hcs.
  all: split;
    [intros name n thr b' Hin;
     repeat (apply elem_of_cons in Hin as [Hin|Hin]; [by simplify_eq|]);
     by apply elem_of_nil in Hin|].
  all: split; [cbn; lia|].
  all: split; [intros [=]; subst; repeat split; set_mem|].
  all: intros (HX & HY & HE).
  all: repeat (apply elem_of_cons in HE as [HE|HE]; [by simplify_eq|]).
  all: by apply elem_of_nil in HE.
Qed.

Lemma search_ruin_body_emits x y :
  emits quiet_event (fn (search_ruin_head x y;; search_ruin_tail)).
Proof.
  assert (∀ ct v, emits quiet_event (input_coordinate ct v)) as Hinput.
  { intros. eapply one_call_quiet; [|apply input_coordinate_one_call]. done. }
  assert (∀ n m t, emits quiet_event (click_element n m t)) as Hclick.
  { intros. eapply one_call_quiet; [|apply click_element_one_call]. done. }
  assert (∀ cmd, emits quiet_event (device_shell (R:=bool) cmd)) as Hshell.
  { intros. eapply emits_mono; [|apply device_shell_emits].
    apply plain_event_quiet. }
  unfold search_ruin_head, search_ruin_tail. emits_auto.
Qed.

(** A ruin search adds quiet events and then the record of its call. *)
Lemma search_ruin_one_probe x y w :
  ∃ inner,
    extends w (search_ruin_at_coordinate x y w).2
      (inner ++ [EvCall (CSearchRuin x y)
                   (result_of (search_ruin_at_coordinate x y w).1)])
    ∧ Forall quiet_event inner.
Proof. apply traced_inner, search_ruin_body_emits. Qed.

(** ** The loops of [explore_ruins_flow], seen through their events *)

Lemma successes_nil : successes [] = 0.
Proof. done. Qed.

Lemma successes_cons p ps :
  successes (p :: ps) = (if started p then 1 else 0) + successes ps.
Proof.
  unfold successes. rewrite filter_cons.
  case_decide as Hp; [rewrite Hp; cbn [length]; lia|].
  destruct (started p); [done|lia].
Qed.

Lemma successes_app ps1 ps2 :
  successes (ps1 ++ ps2) = successes ps1 + successes ps2.
Proof.
  unfold successes. rewrite filter_app, length_app. lia.
Qed.

Lemma successes_le_length ps : successes ps ≤ Z.of_nat (length ps).
Proof. unfold successes. pose proof (length_filter (λ p, started p = true) ps). lia. Qed.

Lemma probes_cons_probe x y r evs :
  probes (EvCall (CSearchRuin x y) r :: evs) = (x, y, r) :: probes evs.
Proof. done. Qed.

Lemma probes_logs logs : Forall is_log logs → probes logs = [].
Proof.
  intros Hlogs. apply probes_quiet. eapply Forall_impl; [done|].
  by intros [].
Qed.

Lemma probes_walk_probe x y b logs l evs :
  Forall is_log logs →
  probes (EvCall (CSearchRuin x y) (Some b) :: logs ++ EvSave l :: evs)
  = (x, y, Some b) :: probes evs.
Proof.
  intros Hlogs. rewrite probes_cons_probe, probes_app, probes_logs by done.
  done.
Qed.

(** The probed coordinates follow the order of the coordinates walked. *)
Lemma Walk_probes_sublist B cs st evs r :
  Walk B cs st evs r → (probe_coord <$> probes evs) `sublist_of` cs.
Proof.
  induction 1 as [st|cs st ?|q cs st evs r Hq _ IH|x y cs st evs r ? ? _ IH
                  |x y b logs cs st evs r ? ? Hlogs _ IH|x y cs st ? ?].
  - done.
  - apply sublist_nil_l.
  - by rewrite probes_app, probes_quiet.
  - by apply sublist_cons.
  - rewrite probes_walk_probe by done. by apply sublist_skip.
  - apply sublist_skip, sublist_nil_l.
Qed.

(** Where the loops end, and what they did to the local variables. *)
Lemma Walk_final B cs st evs st' :
  Walk B cs st evs (Some st') →
  explored_ruins st' = explored_ruins st ++ (probe_key <$> probes evs)
  ∧ marches_used st' = marches_used st + successes (probes evs)
  ∧ Forall (λ p, is_Some p.2) (probes evs).
Proof.
  remember (Some st') as r eqn:Hr. intros HW. revert st' Hr.
  induction HW as [st|cs st ?|q cs st evs r Hq _ IH|x y cs st evs r ? ? _ IH
                  |x y b logs cs st evs r ? ? Hlogs _ IH|x y cs st ? ?];
    intros st' Hr; simplify_eq.
  - change (probes []) with (@nil Probe). rewrite successes_nil.
    cbn [fmap list_fmap]. rewrite app_nil_r. split; [done|].
    split; [lia|done].
  - change (probes []) with (@nil Probe). rewrite successes_nil.
    cbn [fmap list_fmap]. rewrite app_nil_r. split; [done|].
    split; [lia|done].
  - rewrite probes_app, probes_quiet by done. by apply IH.
  - by apply IH.
  - rewrite probes_walk_probe by done.
    destruct (IH st' eq_refl) as (He & Hu & Hc).
    rewrite He, Hu, successes_cons. cbn [after_probe explored_ruins marches_used
      fmap list_fmap].
    split; [by rewrite <- app_assoc|]. split.
    + unfold started, probe_key. cbn. destruct b; lia.
    + constructor; [by eexists|done].
Qed.

(** No probed key was in the set when the loops started, and no key is
    probed twice. *)
Lemma Walk_fresh B cs st evs r :
  Walk B cs st evs r →
  Forall (λ p, probe_key p ∉ explored_ruins st) (probes evs)
  ∧ NoDup (probe_key <$> probes evs).
Proof.
  induction 1 as [st|cs st ?|q cs st evs r Hq _ IH|x y cs st evs r ? ? _ IH
                  |x y b logs cs st evs r ? ? Hlogs _ IH|x y cs st ? ?].
  - split; [done|constructor].
  - split; [done|constructor].
  - by rewrite probes_app, probes_quiet.
  - done.
  - rewrite probes_walk_probe by done. destruct IH as [IH1 IH2].
    cbn [after_probe explored_ruins] in IH1.
    split.
    + constructor; [done|]. eapply Forall_impl; [done|].
      intros p Hp Hin. apply Hp, elem_of_app. by left.
    + cbn. constructor; [|done].
      intros (p & Hk & Hin)%list_elem_of_fmap.
      eapply Forall_forall in IH1; [|done]. apply IH1.
      rewrite <- Hk. apply elem_of_app. right. apply list_elem_of_here.
  - split; [by repeat constructor|]. cbn. apply NoDup_singleton.
Qed.

(** Every probe was made with fewer than [B] explorations started. *)
Lemma Walk_budget B cs st evs r :
  Walk B cs st evs r →
  ∀ pre p post, probes evs = pre ++ p :: post →
    marches_used st + successes pre < B.
Proof.
  induction 1 as [st|cs st ?|q cs st evs r Hq _ IH|x y cs st evs r ? ? _ IH
                  |x y b logs cs st evs r ? ? Hlogs _ IH|x y cs st ? ?];
    intros pre p post Hps.
  - by destruct pre.
  - by destruct pre.
  - rewrite probes_app, probes_quiet in Hps by done. by eapply IH.
  - by eapply IH.
  - rewrite probes_walk_probe in Hps by done.
    destruct pre as [|p0 pre]; [rewrite successes_nil; lia|].
    injection Hps as <- Hps. specialize (IH _ _ _ Hps).
    rewrite successes_cons. cbn [after_probe marches_used] in IH.
    unfold started. cbn. destruct b; lia.
  - destruct pre as [|p0 pre]; [rewrite successes_nil; lia|].
    injection Hps as _ Hps. by destruct pre.
Qed.

(** When the loops end below the budget, the whole list was walked: every
    coordinate of it is in the set. *)
Lemma Walk_exhausted B cs st evs st' :
  Walk B cs st evs (Some st') →
  marches_used st' < B →
  ∀ x y, (x, y) ∈ cs → coord_key x y ∈ explored_ruins st'.
Proof.
  remember (Some st') as r eqn:Hr. intros HW. revert st' Hr.
  induction HW as [st|cs st ?|q cs st evs r Hq _ IH|x y cs st evs r ? ? HW IH
                  |x y b logs cs st evs r ? ? Hlogs HW IH|x y cs st ? ?];
    intros st' Hr Hlt x' y' Hin; simplify_eq.
  - by apply elem_of_nil in Hin.
  - lia.
  - by eapply IH.
  - apply elem_of_cons in Hin as [[= -> ->]|Hin]; [|by eapply IH].
    destruct (Walk_final _ _ _ _ _ HW) as (-> & _). apply elem_of_app. by left.
  - apply elem_of_cons in Hin as [[= -> ->]|Hin]; [|by eapply IH].
    destruct (Walk_final _ _ _ _ _ HW) as (-> & _).
    cbn [after_probe explored_ruins]. rewrite !elem_of_app.
    left; right. apply list_elem_of_here.
Qed.

Lemma last_save_app f evs1 evs2 :
  last_save f (evs1 ++ evs2) = last_save (last_save f evs1) evs2.
Proof. apply foldl_app. Qed.

Lemma quiet_event_not_save e : quiet_event e → is_save e = false.
Proof. by destruct e. Qed.

Lemma last_save_quiet_events f q :
  Forall quiet_event q → last_save f q = f.
Proof.
  intros Hq. apply last_save_quiet. eapply Forall_impl; [done|].
  apply quiet_event_not_save.
Qed.

Lemma last_save_logs f logs : Forall is_log logs → last_save f logs = f.
Proof.
  intros Hlogs. apply last_save_quiet. eapply Forall_impl; [done|].
  by intros [].
Qed.

(** The file after the loops: untouched when no probe returned, and else the
    set with which the loops started followed by the keys of the probes that
    returned. *)
Lemma Walk_last_save B cs st evs r f :
  Walk B cs st evs r →
  last_save f evs
  = match completed (probes evs) with
    | [] => f
    | _ => Some (explored_ruins st ++ (probe_key <$> completed (probes evs)))
    end.
Proof.
  intros HW. revert f.
  induction HW as [st|cs st ?|q cs st evs r Hq _ IH|x y cs st evs r ? ? HW IH
                  |x y b logs cs st evs r ? ? Hlogs HW IH|x y cs st ? ?];
    intros f.
  - done.
  - done.
  - rewrite last_save_app, (last_save_quiet_events f q), probes_app,
      (probes_quiet q) by done. apply IH.
  - apply IH.
  - rewrite probes_walk_probe by done.
    change (last_save f (EvCall (CSearchRuin x y) (Some b)
              :: logs ++ EvSave (explored_ruins st ++ [coord_key x y]) :: evs))
      with (last_save f (logs ++ EvSave (explored_ruins st ++ [coord_key x y])
                         :: evs)).
    rewrite last_save_app, (last_save_logs f logs) by done.
    change (last_save f (EvSave (explored_ruins st ++ [coord_key x y]) :: evs))
      with (last_save (Some (explored_ruins st ++ [coord_key x y])) evs).
    rewrite IH.
    assert (completed ((x, y, Some b) :: probes evs)
            = (x, y, Some b) :: completed (probes evs)) as ->.
    { unfold completed. rewrite filter_cons.
      case_decide as Hsome; [done|]. destruct Hsome. by eexists. }
    cbn [after_probe explored_ruins].
    destruct (completed (probes evs)) as [|p ps]; [done|].
    cbn [fmap list_fmap]. by rewrite <- app_assoc.
  - reflexivity.
Qed.

(** Splitting a list at an element that is not in its first part. *)
Lemma split_after_prefix {A} (q evs pre post : list A) (e : A) :
  Forall (λ e', e' ≠ e) q →
  q ++ evs = pre ++ e :: post →
  ∃ pre', pre = q ++ pre' ∧ evs = pre' ++ e :: post.
Proof.
  revert pre. induction q as [|a q IH]; intros pre Hq Heq.
  - by exists pre.
  - apply Forall_cons in Hq as [Ha Hq].
    destruct pre as [|a' pre]; simplify_eq/=.
    destruct (IH pre Hq) as (pre' & -> & ->); [done|]. by exists pre'.
Qed.

(** Each probe that returned is followed, after log lines only, by the
    write of the set extended with its key. *)
Lemma Walk_save_follows B cs st evs r :
  Walk B cs st evs r →
  ∀ pre x y b post,
    evs = pre ++ EvCall (CSearchRuin x y) (Some b) :: post →
    ∃ logs post',
      post = logs ++ EvSave (explored_ruins st ++ (probe_key <$> probes pre)
                             ++ [coord_key x y]) :: post'
      ∧ Forall is_log logs.
Proof.
  induction 1 as [st|cs st ?|q cs st evs r Hq _ IH|x y cs st evs r ? ? HW IH
                  |x y b logs cs st evs r ? ? Hlogs HW IH|x y cs st ? ?];
    intros pre x' y' b' post Heq.
  - by destruct pre.
  - by destruct pre.
  - apply split_after_prefix in Heq as (pre' & -> & ->).
    + rewrite probes_app, probes_quiet by done. by eapply IH.
    + eapply Forall_impl; [done|]. by intros [] ? ?; simplify_eq.
  - by eapply IH.
  - destruct pre as [|e0 pre].
    + injection Heq as <- <- <- <-. by exists logs, evs.
    + injection Heq as <- Heq.
      apply split_after_prefix in Heq as (pre1 & -> & Heq).
      2:{ eapply Forall_impl; [done|]. by intros [] ? ?. }
      destruct pre1 as [|e1 pre1]; [done|]. injection Heq as <- Heq.
      destruct (IH _ _ _ _ _ Heq) as (logs' & post' & -> & Hlogs').
      exists logs', post'. split; [|done].
      rewrite probes_walk_probe by done.
      cbn [after_probe explored_ruins fmap list_fmap].
      unfold probe_key at 1. cbn [fst snd]. by rewrite <- !app_assoc.
  - destruct pre as [|e0 pre]; [done|]. injection Heq as _ Heq.
    by destruct pre.
Qed.

(** Once the budget is used up, nothing more is walked. *)
Lemma Walk_over_budget B cs cs' st evs r :
  marches_used st >= B → Walk B cs st evs r → Walk B cs' st evs r.
Proof.
  intros Hge. induction 1; try lia.
  - by apply Walk_break.
  - by apply Walk_break.
  - apply Walk_quiet; auto.
Qed.

(** ** [explore_ruins_flow] *)

Ltac step_search :=
  match goal with
  | |- context [search_ruin_at_coordinate ?x ?y ?w] =>
      let inner := fresh "inner" in
      let Hext := fresh "Hext" in
      let Hq := fresh "Hquiet" in
      destruct (search_ruin_one_probe x y w) as (inner & Hext & Hq);
      destruct (search_ruin_at_coordinate x y w) as [[[]|?] ?];
      cbn [fst snd result_of] in Hext; run_top
  end.

(** One pass through the innermost loop body, as a step of [Walk]. *)
Lemma explore_coord_walk B : walk_step B (explore_coord B) (λ c, [c]).
Proof.
  intros c st w. unfold explore_coord. destruct c as [x y].
  case_bool_decide as Hused.
  { exists []. split; [apply extends_refl|done]. }
  case_bool_decide as Hkey.
  { exists []. split; [apply extends_refl|]. cbn. intros cs evs2 r HW.
    apply Walk_skip; [lia|done..]. }
  unfold save_explored_ruins. run_top. step_search.
  all: eexists; (split; [chain|]); cbn [fst snd].
  all: cbn [marches_used total_explored explored_ruins].
  all: try intros cs evs2 r HW; try intros cs.
  all: rewrite ?app_nil_l, <- ?app_assoc; apply Walk_quiet; [done|].
  - eapply (Walk_probe B x y true [_]); [lia|done|by repeat constructor|].
    exact HW.
  - eapply (Walk_probe B x y false []); [lia|done|by repeat constructor|].
    exact HW.
  - apply Walk_raise; [lia|done].
Qed.

(** A loop whose body is a step of [Walk] walks the coordinates of its
    elements one after the other. *)
Lemma for_each_walk {X} B (body : X → Locals → Body bool (Ctl Locals))
    coords_of (l : list X) st w :
  walk_step B body coords_of →
  ∃ evs, extends w (for_each l body st w).2 evs
    ∧ match (for_each l body st w).1 with
      | Next st' =>
          ∀ cs evs2 r,
            Walk B cs st' evs2 r →
            Walk B (concat (coords_of <$> l) ++ cs) st (evs ++ evs2) r
      | Exc e => ∀ cs, Walk B (concat (coords_of <$> l) ++ cs) st evs None
      | Ret _ => False
      end.
Proof.
  intros Hbody. revert st w. induction l as [|x l IH]; intros st w.
  { exists []. split; [apply extends_refl|]. by intros cs evs2 r HW. }
  cbn [for_each fmap list_fmap concat]. unfold bind.
  destruct (Hbody x st w) as (evs1 & Hext1 & H1).
  destruct (body x st w) as [[[st1|st1]|?|e] w1];
    cbn [fst snd] in *; [| | done |].
  - destruct (IH st1 w1) as (evs2 & Hext2 & H2).
    exists (evs1 ++ evs2). split; [by eapply extends_trans|].
    destruct (for_each l _ st1 w1) as [[st2|?|e] w2];
      cbn [fst snd] in *; [|done|].
    + intros cs evs3 r HW. rewrite <- !app_assoc. apply H1, H2, HW.
    + intros cs. rewrite <- app_assoc. apply H1, H2.
  - destruct H1 as (-> & -> & Hge). exists []. split; [done|].
    intros cs evs2 r HW. by eapply Walk_over_budget.
  - exists evs1. split; [done|]. intros cs. rewrite <- app_assoc. apply H1.
Qed.

Lemma concat_singletons {A} (l : list A) : concat ((λ c, [c]) <$> l) = l.
Proof. induction l as [|a l IH]; [done|]. cbn. by rewrite IH. Qed.

(** The body of the loop over the areas, and of the loop over the levels. *)
Lemma explore_area_walk B : walk_step B (explore_area B) snd.
Proof.
  intros [area_name coordinates] st w. unfold explore_area.
  case_bool_decide as Hused.
  { exists []. split; [apply extends_refl|done]. }
  run_top.
  match goal with
  | |- context [for_each ?l ?body st ?w1] =>
      destruct (for_each_walk B body (λ c, [c]) l st w1 (explore_coord_walk B))
        as (evs & Hext & H);
      destruct (for_each l body st w1) as [[st1|?|e] w2]
  end; cbn [fst snd] in *; [|done|].
  all: rewrite concat_singletons in H.
  all: eexists; (split; [chain|]).
  all: try intros cs evs2 r HW; try intros cs.
  all: rewrite ?app_nil_l, <- ?app_assoc.
  all: apply Walk_quiet; [solve_Forall|]; by apply H.
Qed.

Lemma explore_level_walk B :
  walk_step B (explore_level B) (λ lv, area_coordinates lv.2).
Proof.
  intros [level areas] st w. unfold explore_level.
  case_bool_decide as Hused.
  { exists []. split; [apply extends_refl|done]. }
  run_top.
  match goal with
  | |- context [for_each ?l ?body st ?w1] =>
      destruct (for_each_walk B body snd l st w1 (explore_area_walk B))
        as (evs & Hext & H);
      destruct (for_each l body st w1) as [[st1|?|e] w2]
  end; cbn [fst snd] in *; [|done|].
  all: eexists; (split; [chain|]).
  all: try intros cs evs2 r HW; try intros cs.
  all: rewrite ?app_nil_l, <- ?app_assoc.
  all: apply Walk_quiet; [solve_Forall|]; by apply H.
Qed.

Lemma count_available_marches_run w :
  ∃ evs,
    (count_available_marches w).1 = Val (counted_marches w)
    ∧ extends w (count_available_marches w).2 evs
    ∧ Forall (λ e, is_log e ∨ is_detect e) evs.
Proof.
  destruct (count_available_marches_emits w) as (evs & Hext & Hevs).
  exists evs. split; [apply count_available_marches_result|done].
Qed.

Lemma load_explored_ruins_run w :
  load_explored_ruins w = (Val (loaded_ruins w), w).
Proof.
  unfold load_explored_ruins, loaded_ruins.
  destruct w as [b cfg e t [l|] tr]; by run_py.
Qed.

Lemma ruin_coordinates_by_level :
  concat ((λ lv, area_coordinates lv.2) <$> _load_ruin_coordinates)
  = ruin_coordinates.
Proof.
  unfold ruin_coordinates, level_coordinates.
  by rewrite <- list_fmap_compose.
Qed.

Lemma log_or_detect_quiet e : is_log e ∨ is_detect e → quiet_event e.
Proof. by destruct e; intros [[]|[]]. Qed.

Lemma Walk_quiet_end B st q :
  Forall quiet_event q → Walk B [] st q (Some st).
Proof.
  intros Hq. rewrite <- (app_nil_r q). apply Walk_quiet; [done|].
  apply Walk_done.
Qed.

Ltac step_count :=
  match goal with
  | |- context [count_available_marches ?w] =>
      let evs := fresh "evs" in
      let Hext := fresh "Hext" in
      let Hr := fresh "Hr" in
      let Hev := fresh "Hcount" in
      destruct (count_available_marches_run w) as (evs & Hr & Hext & Hev);
      destruct (count_available_marches w) as [? ?];
      cbn [fst snd] in Hext, Hr; rewrite Hr; clear Hr; run_top
  end.

(** The whole flow: with no march available it returns [False] after the
    budget probe; otherwise its events are a walk of the catalog from the
    loaded set, and it returns whether an exploration was started. *)
Lemma explore_ruins_flow_walk w :
  ∃ evs, extends w (explore_ruins_flow w).2 evs
    ∧ if decide (counted_marches w = 0) then
        (explore_ruins_flow w).1 = Val false
        ∧ Forall (λ e, is_log e ∨ is_detect e) evs
      else
        ∃ res,
          Walk (counted_marches w) ruin_coordinates
            (initial_locals (loaded_ruins w)) evs res
          ∧ match res with
            | Some st =>
                (explore_ruins_flow w).1
                = Val (bool_decide (marches_used st > 0))
                ∧ EvLog ("   Marches used: " +:+ pretty (marches_used st)
                         +:+ "/" +:+ pretty (counted_marches w)) ∈ evs
            | None => ∃ e, (explore_ruins_flow w).1 = Err e
            end.
Proof.
  unfold explore_ruins_flow. run_top. step_count.
  change (counted_marches _) with (counted_marches w) in *.
  case_bool_decide as HB.
  { eexists. split; [chain|]. rewrite decide_True by done.
    split; [done|]. rewrite app_nil_l. apply Forall_app. split; [|solve_Forall].
    apply Forall_app. split; [solve_Forall|done]. }
  destruct (decide (counted_marches w = 0)) as [?|_]; [done|].
  rewrite load_explored_ruins_run. run_top.
  assert (Forall quiet_event evs) as Hquiet
    by (eapply Forall_impl; [done|]; apply log_or_detect_quiet).
  assert (explored_file w0 = explored_file w) as Hfile.
  { destruct Hext as [_ _ _ _ ->]. cbn [explored_file].
    by apply last_save_quiet_events. }
  match goal with
  | |- context [loaded_ruins ?w'] =>
      assert (loaded_ruins w' = loaded_ruins w) as ->
        by (unfold loaded_ruins; cbn [explored_file]; by rewrite Hfile)
  end.
  fold (initial_locals (loaded_ruins w)).
  match goal with
  | |- context [for_each ?l ?body ?st ?w1] =>
      destruct (for_each_walk (counted_marches w) body
                  (λ lv, area_coordinates lv.2) l st w1
                  (explore_level_walk (counted_marches w)))
        as (evs1 & Hext1 & H);
      destruct (for_each l body st w1) as [[st1|?|e] w2]
  end; cbn [fst snd] in *; [|done|].
  all: rewrite ruin_coordinates_by_level in H.
  - (* the loops ended *)
    run_top. step_click.
    all: eexists; (split; [chain|]); exists (Some st1).
    all: rewrite ?app_nil_l, <- ?app_assoc.
    all: split;
      [|split; [done|];
        rewrite !elem_of_app, !list_elem_of_singleton; by eauto 20].
    all: repeat (apply Walk_quiet; [first [solve_Forall|done]|]).
    all: rewrite <- (app_nil_r ruin_coordinates); apply H.
    all: apply Walk_quiet_end.
    all: repeat (apply Forall_app; split); try solve_Forall.
    all: eapply Forall_impl; [done|]; apply plain_event_quiet.
  - (* a ruin search raised *)
    eexists. split; [chain|]. exists None.
    rewrite ?app_nil_l, <- ?app_assoc. split; [|by eauto].
    repeat (apply Walk_quiet; [first [solve_Forall|done]|]).
    rewrite <- (app_nil_r ruin_coordinates). apply H.
Qed.

Lemma count_available_marches_val w B :
  (count_available_marches w).1 = Val B → counted_marches w = B.
Proof. rewrite count_available_marches_result. by intros [=]. Qed.

Lemma load_explored_ruins_val w E :
  (load_explored_ruins w).1 = Val E → loaded_ruins w = E.
Proof. rewrite load_explored_ruins_run. by intros [=]. Qed.

(** The two ways the flow can go, in terms of the events it added. *)
Lemma explore_ruins_flow_cases w :
  extends w (explore_ruins_flow w).2 (new_events w (explore_ruins_flow w).2)
  ∧ ((counted_marches w = 0
      ∧ (explore_ruins_flow w).1 = Val false
      ∧ Forall (λ e, is_log e ∨ is_detect e)
          (new_events w (explore_ruins_flow w).2))
     ∨ (counted_marches w ≠ 0
        ∧ ∃ res,
            Walk (counted_marches w) ruin_coordinates
              (initial_locals (loaded_ruins w))
              (new_events w (explore_ruins_flow w).2) res
            ∧ match res with
              | Some st =>
                  (explore_ruins_flow w).1
                  = Val (bool_decide (marches_used st > 0))
                  ∧ EvLog ("   Marches used: " +:+ pretty (marches_used st)
                           +:+ "/" +:+ pretty (counted_marches w))
                    ∈ new_events w (explore_ruins_flow w).2
              | None => ∃ e, (explore_ruins_flow w).1 = Err e
              end)).
Proof.
  destruct (explore_ruins_flow_walk w) as (evs & Hext & H).
  rewrite (extends_new_events _ _ _ Hext). split; [done|].
  destruct (decide (counted_marches w = 0)); [left|right]; by split.
Qed.

Lemma probes_log_or_detect evs :
  Forall (λ e, is_log e ∨ is_detect e) evs → probes evs = [].
Proof.
  intros H. apply probes_quiet. eapply Forall_impl; [done|].
  apply log_or_detect_quiet.
Qed.

(** A key that is in the loaded set is not probed. *)
Lemma explore_ruins_flow_skips_loaded w p :
  p ∈ probes (new_events w (explore_ruins_flow w).2) →
  probe_key p ∉ loaded_ruins w.
Proof.
  destruct (explore_ruins_flow_cases w) as [_ [(_ & _ & Hevs)|(_ & res & HW & _)]].
  - rewrite probes_log_or_detect by done. by intros ?%elem_of_nil.
  - intros Hp. apply Walk_fresh in HW as [Hfresh _].
    by eapply Forall_forall in Hfresh.
Qed.

(** C6: when the budget probe returns 0 the flow returns [False] at once:
    it makes no ruin search, its only events are log lines and the
    detections of the budget probe (no file is written, no set is loaded),
    and the explored file is what it was. *)
Theorem explore_ruins_flow_zero_budget (w : World) :
  (count_available_marches w).1 = Val 0 →
  (explore_ruins_flow w).1 = Val false
  ∧ probes (new_events w (explore_ruins_flow w).2) = []
  ∧ Forall (λ e, is_log e ∨ is_detect e)
      (new_events w (explore_ruins_flow w).2)
  ∧ explored_file (explore_ruins_flow w).2 = explored_file w.
Proof.
  intros HB%count_available_marches_val.
  destruct (explore_ruins_flow_cases w) as [Hext [(_ & Hr & Hevs)|(? & _)]];
    [|done].
  split; [done|]. split; [by apply probes_log_or_detect|]. split; [done|].
  destruct Hext as [_ _ _ _ ->]. apply last_save_quiet_events.
  eapply Forall_impl; [done|]. apply log_or_detect_quiet.
Qed.

Lemma explore_ruins_flow_zero_budget_witness :
  (count_available_marches all_found_world).1 = Val 0
  ∧ (explore_ruins_flow all_found_world).1 = Val false
  ∧ probes (new_events all_found_world
              (explore_ruins_flow all_found_world).2) = []
  ∧ Forall (λ e, is_log e ∨ is_detect e)
      (new_events all_found_world (explore_ruins_flow all_found_world).2)
  ∧ explored_file (explore_ruins_flow all_found_world).2
    = explored_file all_found_world.
Proof.
  split; [by vm_compute|].
  apply (explore_ruins_flow_zero_budget all_found_world). by vm_compute.
Defined.

(** C4: a coordinate whose key is in the set loaded at the start of the
    flow is not probed during the run, whatever the budget and whatever the
    device answers. *)
Theorem explored_coordinates_not_probed
    (w : World) (E : list string) (x y : Z) :
  (load_explored_ruins w).1 = Val E →
  coord_key x y ∈ E →
  ∀ r, (x, y, r) ∉ probes (new_events w (explore_ruins_flow w).2).
Proof.
  intros HE%load_explored_ruins_val Hin r Hp.
  apply explore_ruins_flow_skips_loaded in Hp. by rewrite HE in Hp.
Qed.

Lemma explored_coordinates_not_probed_witness :
  (load_explored_ruins (two_marches_world (Some ["15,149"]))).1
  = Val ["15,149"]
  ∧ coord_key 15 149 ∈ ["15,149"]
  ∧ ∀ r, (15, 149, r)
         ∉ probes (new_events (two_marches_world (Some ["15,149"]))
                     (explore_ruins_flow
                        (two_marches_world (Some ["15,149"]))).2).
Proof.
  split; [by vm_compute|]. split; [vm_compute; apply list_elem_of_here|].
  apply (explored_coordinates_not_probed _ ["15,149"]).
  - by vm_compute.
  - vm_compute. apply list_elem_of_here.
Defined.

Lemma successes_within_budget B ps :
  0 ≤ B →
  (∀ pre p post, ps = pre ++ p :: post → successes pre < B) →
  successes ps ≤ B.
Proof.
  intros HB H. destruct ps as [|p0 ps _] using rev_ind.
  - by rewrite successes_nil.
  - specialize (H ps p0 [] eq_refl). rewrite successes_app, successes_cons,
      successes_nil. destruct (started p0); lia.
Qed.

(** C1: with [B] the budget returned by the budget probe and [E] the set
    loaded from the file, the probes of a run follow the catalog order
    (level, area, coordinate), are made only for coordinates whose key is
    not in [E], and each is made with fewer than [B] successful probes before
    it, so at most [B] probes succeed; the used-count that the flow logs and
    on which its result depends is the number of successful probes. *)
Theorem explore_ruins_flow_respects_budget
    (w : World) (B : Z) (E : list string) :
  (count_available_marches w).1 = Val B →
  (load_explored_ruins w).1 = Val E →
  let r := explore_ruins_flow w in
  let ps := probes (new_events w r.2) in
  (probe_coord <$> ps) `sublist_of` ruin_coordinates
  ∧ (∀ p, p ∈ ps → probe_key p ∉ E)
  ∧ (∀ pre p post, ps = pre ++ p :: post → successes pre < B)
  ∧ successes ps ≤ B
  ∧ (∀ b, r.1 = Val b →
       b = bool_decide (successes ps > 0)
       ∧ (B ≠ 0 →
          EvLog ("   Marches used: " +:+ pretty (successes ps) +:+ "/"
                 +:+ pretty B) ∈ new_events w r.2)).
Proof.
  intros HB%count_available_marches_val HE%load_explored_ruins_val r ps.
  subst r ps. pose proof (counted_marches_range w) as Hrange.
  assert (∀ p, p ∈ probes (new_events w (explore_ruins_flow w).2) →
               probe_key p ∉ E) as Hskip.
  { intros p Hp. rewrite <- HE. by apply explore_ruins_flow_skips_loaded. }
  destruct (explore_ruins_flow_cases w)
    as [_ [(Hzero & Hr & Hevs)|(Hne & res & HW & Hres)]].
  - rewrite probes_log_or_detect by done. rewrite Hr.
    split; [apply sublist_nil_l|]. split; [by intros ? ?%elem_of_nil|].
    split; [by intros [] ? ? ?|]. split; [rewrite successes_nil; lia|].
    intros b [= <-]. split; [done|intros; lia].
  - rewrite HB in *.
    pose proof (Walk_budget _ _ _ _ _ HW) as Hbudget.
    cbn [initial_locals marches_used] in Hbudget.
    assert (∀ pre p post,
              probes (new_events w (explore_ruins_flow w).2) = pre ++ p :: post →
              successes pre < B) as Hbudget'.
    { intros pre p post Hps. specialize (Hbudget pre p post Hps). lia. }
    split; [by eapply Walk_probes_sublist|]. split; [done|].
    split; [done|]. split; [apply successes_within_budget; [lia|done]|].
    intros b Hb. destruct res as [st|]; [|destruct Hres as [e He]; congruence].
    destruct Hres as [Hr Hlog].
    destruct (Walk_final _ _ _ _ _ HW) as (_ & Hused & _).
    cbn [initial_locals marches_used] in Hused. rewrite Z.add_0_l in Hused.
    rewrite Hused in Hr, Hlog. split; [congruence|done].
Qed.

Lemma explore_ruins_flow_respects_budget_witness :
  (count_available_marches (two_marches_world None)).1 = Val 2
  ∧ (load_explored_ruins (two_marches_world None)).1 = Val []
  ∧ probes (new_events (two_marches_world None)
              (explore_ruins_flow (two_marches_world None)).2)
    = [(15, 149, Some true); (33, 175, Some true)]
  ∧ successes (probes (new_events (two_marches_world None)
                         (explore_ruins_flow (two_marches_world None)).2))
    ≤ 2.
Proof.
  split; [by vm_compute|]. split; [by vm_compute|]. split; [by vm_compute|].
  apply (explore_ruins_flow_respects_budget (two_marches_world None) 2 []);
    by vm_compute.
Defined.

Lemma completed_all ps : Forall (λ p : Probe, is_Some p.2) ps → completed ps = ps.
Proof.
  intros H. unfold completed. induction H as [|p ps Hp _ IH]; [done|].
  rewrite filter_cons, decide_True by done. f_equal. exact IH.
Qed.

Lemma elem_of_completed x y b ps :
  (x, y, Some b) ∈ ps → (x, y, Some b) ∈ completed ps.
Proof. intros Hin. apply list_elem_of_filter. split; [by eexists|done]. Qed.

(** The file that a run leaves holds the key of every probe that returned. *)
Lemma explore_ruins_flow_file w x y b :
  (x, y, Some b) ∈ probes (new_events w (explore_ruins_flow w).2) →
  ∃ l, explored_file (explore_ruins_flow w).2 = Some l ∧ coord_key x y ∈ l.
Proof.
  destruct (explore_ruins_flow_cases w)
    as [Hext [(_ & _ & Hevs)|(_ & res & HW & _)]].
  - rewrite probes_log_or_detect by done. by intros ?%elem_of_nil.
  - intros Hin%elem_of_completed. destruct Hext as [_ _ _ _ ->].
    rewrite (Walk_last_save _ _ _ _ _ _ HW).
    destruct (completed _) as [|p ps] eqn:Hc; [by apply elem_of_nil in Hin|].
    eexists. split; [done|]. apply elem_of_app. right.
    apply list_elem_of_fmap. by exists (x, y, Some b).
Qed.

(** C3: right after each ruin search that returned, with [True] or with
    [False], and before anything but log lines, the flow writes the file
    with the loaded set followed by the keys of all coordinates searched so
    far, this one included. So the key of a coordinate whose search failed is
    in the file the run leaves, the coordinate is not searched again in the
    same run, and it is not searched in a later run that starts from that
    file. *)
Theorem probed_coordinates_are_saved (w : World) (E : list string) :
  (load_explored_ruins w).1 = Val E →
  let r := explore_ruins_flow w in
  let evs := new_events w r.2 in
  (∀ pre x y b post,
     evs = pre ++ EvCall (CSearchRuin x y) (Some b) :: post →
     ∃ logs post',
       post = logs ++ EvSave (E ++ (probe_key <$> probes pre)
                              ++ [coord_key x y]) :: post'
       ∧ Forall is_log logs)
  ∧ (∀ x y b, (x, y, Some b) ∈ probes evs →
       ∃ l, explored_file r.2 = Some l ∧ coord_key x y ∈ l)
  ∧ NoDup (probe_key <$> probes evs)
  ∧ (∀ w2 x y b r2,
       explored_file w2 = explored_file r.2 →
       (x, y, Some b) ∈ probes evs →
       (x, y, r2) ∉ probes (new_events w2 (explore_ruins_flow w2).2)).
Proof.
  intros HE%load_explored_ruins_val r evs. subst r evs.
  split; [|split; [|split]].
  - destruct (explore_ruins_flow_cases w)
      as [_ [(_ & _ & Hevs)|(_ & res & HW & _)]].
    + intros pre x y b post Heq. rewrite Heq in Hevs.
      apply Forall_app in Hevs as [_ Hevs].
      apply Forall_cons in Hevs as [[[]|[]] _].
    + intros pre x y b post Heq.
      destruct (Walk_save_follows _ _ _ _ _ HW _ _ _ _ _ Heq)
        as (logs & post' & -> & Hlogs).
      exists logs, post'. by rewrite <- HE.
  - intros x y b. apply explore_ruins_flow_file.
  - destruct (explore_ruins_flow_cases w)
      as [_ [(_ & _ & Hevs)|(_ & res & HW & _)]].
    + rewrite probes_log_or_detect by done. constructor.
    + by apply Walk_fresh in HW as [_ ?].
  - intros w2 x y b r2 Hfile Hin Hin2.
    apply explore_ruins_flow_file in Hin as (l & Hl & Hkey).
    apply explore_ruins_flow_skips_loaded in Hin2. apply Hin2.
    unfold loaded_ruins. by rewrite Hfile, Hl.
Qed.

Lemma probed_coordinates_are_saved_witness :
  (load_explored_ruins second_try_world).1 = Val []
  ∧ probes (new_events second_try_world
              (explore_ruins_flow second_try_world).2)
    = [(15, 149, Some false); (33, 175, Some true); (34, 110, Some true)]
  ∧ explored_file (explore_ruins_flow second_try_world).2
    = Some ["15,149"; "33,175"; "34,110"]
  ∧ ∃ l, explored_file (explore_ruins_flow second_try_world).2 = Some l
         ∧ coord_key 15 149 ∈ l.
Proof.
  split; [by vm_compute|]. split; [by vm_compute|]. split; [by vm_compute|].
  apply (proj1 (proj2 (probed_coordinates_are_saved second_try_world []
                         eq_refl)) 15 149 false).
  vm_compute. apply list_elem_of_here.
Defined.

Lemma two_in_list {A} (a b : A) (l : list A) :
  a ∈ l → b ∈ l → a ≠ b → (2 ≤ length l)%nat.
Proof.
  intros Ha Hb Hne. destruct l as [|c [|d l]]; cbn; [|..|lia].
  - by apply elem_of_nil in Ha.
  - apply list_elem_of_singleton in Ha, Hb. congruence.
Qed.

(** C5: after a run that started from an empty explored set and returned,
    the explored set in the file has at least [B] entries, [B] being the
    budget the probe returned (between 0 and 2), and at most as many entries
    as the catalog has coordinates (690). *)
Theorem explored_set_size_after_flow (w : World) (B : Z) (b : bool) :
  (count_available_marches w).1 = Val B →
  (load_explored_ruins w).1 = Val [] →
  (explore_ruins_flow w).1 = Val b →
  ∃ F,
    (load_explored_ruins (explore_ruins_flow w).2).1 = Val F
    ∧ 0 ≤ B ≤ 2
    ∧ B ≤ Z.of_nat (length F)
    ∧ (length F ≤ length ruin_coordinates)%nat
    ∧ length ruin_coordinates = 690%nat.
Proof.
  intros HB%count_available_marches_val HE%load_explored_ruins_val Hb.
  pose proof (counted_marches_range w) as Hrange. rewrite HB in Hrange.
  exists (loaded_ruins (explore_ruins_flow w).2).
  split; [by rewrite load_explored_ruins_run|]. split; [done|].
  rewrite ruin_coordinates_length.
  destruct (explore_ruins_flow_cases w)
    as [Hext [(Hzero & _ & Hevs)|(Hne & res & HW & Hres)]].
  - unfold loaded_ruins in *. destruct Hext as [_ _ _ _ ->].
    rewrite last_save_quiet_events, HE
      by (eapply Forall_impl; [done|]; apply log_or_detect_quiet).
    cbn. split; [|split]; [lia|lia|done].
  - rewrite HB in *.
    destruct res as [st|]; [|destruct Hres as [e He]; congruence].
    destruct (Walk_final _ _ _ _ _ HW) as (Hexp & Hused & Hall).
    cbn [initial_locals marches_used explored_ruins] in Hexp, Hused.
    rewrite HE in Hexp. cbn [app] in Hexp.
    pose proof (Walk_probes_sublist _ _ _ _ _ HW) as Hsub%sublist_length.
    rewrite length_fmap, ruin_coordinates_length in Hsub.
    pose proof (Walk_exhausted _ _ _ _ _ HW) as Hexh.
    set (ps := probes (new_events w (explore_ruins_flow w).2)) in *.
    assert (loaded_ruins (explore_ruins_flow w).2 = probe_key <$> ps) as ->.
    { unfold loaded_ruins. destruct Hext as [_ _ _ _ ->].
      rewrite (Walk_last_save _ _ _ _ _ _ HW). fold ps.
      rewrite completed_all by done.
      destruct ps as [|p ps'] eqn:Hps; [|by rewrite HE].
      (* no probe at all: the catalog would be empty *)
      exfalso. rewrite successes_nil in Hused. cbn [fmap list_fmap] in Hexp.
      assert (coord_key 15 149 ∈ explored_ruins st) as Hin.
      { apply Hexh; [lia|]. vm_compute. apply list_elem_of_here. }
      rewrite Hexp in Hin. by apply elem_of_nil in Hin. }
    rewrite length_fmap. split; [|split; [done|done]].
    destruct (decide (marches_used st < B)) as [Hlt|Hge].
    + (* the catalog was walked to its end *)
      enough (2 ≤ length ps)%nat by lia.
      rewrite <- (length_fmap probe_key), <- Hexp.
      apply (two_in_list (coord_key 15 149) (coord_key 33 175)).
      * apply Hexh; [done|]. vm_compute. apply list_elem_of_here.
      * apply Hexh; [done|]. vm_compute.
        apply list_elem_of_further, list_elem_of_here.
      * by vm_compute.
    + pose proof (successes_le_length ps). lia.
Qed.

Lemma explored_set_size_after_flow_witness :
  (count_available_marches (two_marches_world None)).1 = Val 2
  ∧ (load_explored_ruins (two_marches_world None)).1 = Val []
  ∧ (explore_ruins_flow (two_marches_world None)).1 = Val true
  ∧ (load_explored_ruins (explore_ruins_flow (two_marches_world None)).2).1
    = Val ["15,149"; "33,175"]
  ∧ ∃ F,
      (load_explored_ruins (explore_ruins_flow (two_marches_world None)).2).1
      = Val F
      ∧ 0 ≤ 2 ≤ 2
      ∧ 2 ≤ Z.of_nat (length F)
      ∧ (length F ≤ length ruin_coordinates)%nat
      ∧ length ruin_coordinates = 690%nat.
Proof.
  split; [by vm_compute|]. split; [by vm_compute|]. split; [by vm_compute|].
  split; [by vm_compute|].
  apply (explored_set_size_after_flow (two_marches_world None) 2 true);
    by vm_compute.
Defined.

(** ** Runs on a device that answers *)

Section sound_rules.
Context {R : Type}.

Lemma sound_pure {A} (a : A) : sound is_exc (mret (M:=Body R) a).
Proof. intros w Hw. split; [exact Hw|intros []]. Qed.

Lemma sound_return {A} (r : R) : sound is_exc (return_ (A:=A) r).
Proof. intros w Hw. split; [exact Hw|intros []]. Qed.

Lemma sound_gets {A} (f : World → A) : sound is_exc (gets (R:=R) f).
Proof. intros w Hw. split; [exact Hw|intros []]. Qed.

Lemma sound_advance : sound is_exc (advance (R:=R)).
Proof. intros w Hw. split; [exact Hw|intros []]. Qed.

Lemma sound_sleep : sound is_exc (sleep (R:=R)).
Proof. intros w Hw. split; [exact Hw|intros []]. Qed.

Lemma sound_emit e : sound is_exc (emit (R:=R) e).
Proof. intros w Hw. split; [exact Hw|intros []]. Qed.

Lemma sound_log msg : sound is_exc (log (R:=R) msg).
Proof. apply sound_emit. Qed.

Lemma sound_print msg : sound is_exc (print (R:=R) msg).
Proof. apply sound_emit. Qed.

Lemma sound_write_file l : sound is_exc (write_file (R:=R) l).
Proof. intros w Hw. split; [exact Hw|intros []]. Qed.

Lemma sound_device_shell cmd : sound is_exc (device_shell (R:=R) cmd).
Proof.
  intros [[dev gui] cfg e t f tr] [Hdev Hshell]. cbn in Hdev, Hshell.
  subst dev. unfold device_shell. run_py. rewrite Hshell.
  split; [by split|intros []].
Qed.

Lemma sound_bind {A B} (m : Body R A) (k : A → Body R B) :
  sound is_exc m → (∀ a, sound is_exc (k a)) → sound is_exc (m ≫= k).
Proof.
  intros Hm Hk w Hw. unfold mbind, Body_bind, bind.
  destruct (Hm w Hw) as [Hw1 Hr1].
  destruct (m w) as [[a|r|e] w1]; cbn [fst snd] in *; [by apply Hk|done..].
Qed.

Lemma sound_try_except {A} (body handler : Body R A) :
  sound is_exc body → sound is_exc (try_except body handler).
Proof.
  intros Hb w Hw. unfold try_except. destruct (Hb w Hw) as [Hw1 Hr1].
  by destruct (body w) as [[a|r|e] w1].
Qed.

Lemma sound_fn (body : Body R R) : sound is_exc body → sound is_err (fn body).
Proof.
  intros Hb w Hw. unfold fn. destruct (Hb w Hw) as [Hw1 Hr1].
  by destruct (body w) as [[a|r|e] w1].
Qed.

Lemma sound_call {A} (m : Py A) : sound is_err m → sound is_exc (call (R:=R) m).
Proof.
  intros Hm w Hw. unfold call. destruct (Hm w Hw) as [Hw1 Hr1].
  by destruct (m w) as [[a|e] w1].
Qed.

Lemma sound_for_each {X S} (l : list X) (body : X → S → Body R (Ctl S)) s :
  (∀ x s, sound is_exc (body x s)) → sound is_exc (for_each l body s).
Proof.
  intros Hbody. revert s. induction l as [|x l IH]; intros s; cbn [for_each].
  - apply (sound_pure s).
  - apply (sound_bind (body x s)); [done|]. intros [s'|s']; [done|].
    apply (sound_pure s').
Qed.

End sound_rules.

Lemma sound_traced c (m : Py bool) : sound is_err m → sound is_err (traced c m).
Proof.
  intros Hm w Hw. unfold traced. destruct (Hm w Hw) as [Hw1 Hr1].
  by destruct (m w) as [[a|e] w1].
Qed.

Ltac sound_step :=
  lazymatch goal with
  | |- sound _ (mbind _ _) => apply sound_bind
  | |- sound _ (mret _) => apply sound_pure
  | |- sound _ (return_ _) => apply sound_return
  | |- sound _ (gets _) => apply sound_gets
  | |- sound _ advance => apply sound_advance
  | |- sound _ sleep => apply sound_sleep
  | |- sound _ (log _) => apply sound_log
  | |- sound _ (print _) => apply sound_print
  | |- sound _ (emit _) => apply sound_emit
  | |- sound _ (write_file _) => apply sound_write_file
  | |- sound _ (device_shell _) => apply sound_device_shell
  | |- sound _ (try_except _ _) => apply sound_try_except
  | |- sound _ (fn _) => apply sound_fn
  | |- sound _ (call _) => apply sound_call
  | |- sound _ (traced _ _) => apply sound_traced
  | |- sound _ (for_each _ _ _) => apply sound_for_each
  | |- sound _ (if ?b then _ else _) => destruct b
  | |- sound _ (match ?x with _ => _ end) => destruct x
  | |- ∀ _, _ => intros
  end.
Ltac sound_auto := repeat sound_step; try done.

Lemma detect_sound image area thr :
  sound is_err (detect_ui_element_in_area image area thr).
Proof. unfold detect_ui_element_in_area. sound_auto. Qed.

Lemma click_element_sound name max thr :
  sound is_err (click_element name max thr).
Proof.
  unfold click_element, click_attempt, click_coordinate. sound_auto.
  all: apply detect_sound.
Qed.

Lemma search_ruin_sound x y : sound is_err (search_ruin_at_coordinate x y).
Proof.
  unfold search_ruin_at_coordinate, search_ruin_head, search_ruin_tail,
    input_coordinate.
  sound_auto. all: apply click_element_sound.
Qed.

Lemma explore_ruins_flow_sound : sound is_err explore_ruins_flow.
Proof.
  unfold explore_ruins_flow, explore_level, explore_area, explore_coord,
    count_available_marches, load_explored_ruins, save_explored_ruins.
  sound_auto.
  all: first [apply detect_sound | apply click_element_sound
             | apply search_ruin_sound].
Qed.

(** When [device.shell] does not raise, the flow returns: with a device by
    the rules above, and without one because the budget is then 0. *)
Lemma explore_ruins_flow_returns w :
  (∀ t cmd, shell_raises (env w) t cmd = false) →
  ∃ b, (explore_ruins_flow w).1 = Val b.
Proof.
  intros Hshell. destruct (device (bot w)) eqn:Hdev.
  - destruct (explore_ruins_flow_sound w) as [_ Hr]; [done|].
    destruct (explore_ruins_flow w).1 as [b|e]; [by exists b|done].
  - destruct (explore_ruins_flow_cases w) as [_ [(_ & Hr & _)|(Hne & _)]].
    + by exists false.
    + destruct Hne. unfold counted_marches. by rewrite Hdev.
Qed.

(** The run that the theorems on returned runs leave out: the first tap of
    [input_coordinate] is outside its [try], so an exception of
    [device.shell] there leaves the flow, and nothing is written. *)
Example explore_ruins_flow_aborts :
  (count_available_marches failing_shell_world).1 = Val 2
  ∧ (explore_ruins_flow failing_shell_world).1 = Err DeviceError
  ∧ probes (new_events failing_shell_world
              (explore_ruins_flow failing_shell_world).2)
    = [(15, 149, None)]
  ∧ explored_file (explore_ruins_flow failing_shell_world).2 = None.
Proof. by vm_compute. Qed.

(** ** More on [explore_ruins_flow]: what it does to the file *)

Lemma loaded_ruins_after_walk B cs st evs r f :
  Walk B cs st evs r →
  default [] f = explored_ruins st →
  default [] (last_save f evs)
  = explored_ruins st ++ (probe_key <$> completed (probes evs)).
Proof.
  intros HW Hf. rewrite (Walk_last_save _ _ _ _ _ _ HW).
  destruct (completed (probes evs)) as [|p ps]; [|done].
  cbn [fmap list_fmap]. by rewrite app_nil_r.
Qed.

(** The set in the file after a run, whatever the run did: the loaded set
    followed by the keys of the searches that returned. *)
Lemma explore_ruins_flow_final_set w :
  loaded_ruins (explore_ruins_flow w).2
  = loaded_ruins w
    ++ (probe_key <$> completed (probes (new_events w (explore_ruins_flow w).2))).
Proof.
  destruct (explore_ruins_flow_cases w)
    as [Hext [(_ & _ & Hevs)|(_ & res & HW & _)]].
  - rewrite probes_log_or_detect by done. cbn. rewrite app_nil_r.
    unfold loaded_ruins. destruct Hext as [_ _ _ _ ->].
    rewrite last_save_quiet_events; [done|].
    eapply Forall_impl; [done|]. apply log_or_detect_quiet.
  - unfold loaded_ruins at 1. destruct Hext as [_ _ _ _ ->].
    by rewrite (loaded_ruins_after_walk _ _ _ _ _ _ HW).
Qed.

(** X1: the flow only ever appends to the explored set: what was in the file
    before a run is, in the same order, the beginning of what is in the file
    after it, also when the run is cut short by an exception. *)
Theorem explore_ruins_flow_keeps_explored (w : World) :
  loaded_ruins w `prefix_of` loaded_ruins (explore_ruins_flow w).2.
Proof. rewrite explore_ruins_flow_final_set. by apply prefix_app_r. Qed.

Lemma completed_sublist ps : completed ps `sublist_of` ps.
Proof. apply sublist_filter. Qed.

(** X2: a file without duplicate keys stays without duplicate keys. *)
Theorem explore_ruins_flow_keeps_no_duplicates (w : World) :
  NoDup (loaded_ruins w) → NoDup (loaded_ruins (explore_ruins_flow w).2).
Proof.
  intros Hnd. rewrite explore_ruins_flow_final_set.
  set (ps := probes (new_events w (explore_ruins_flow w).2)).
  assert (NoDup (probe_key <$> ps)
          ∧ Forall (λ p, probe_key p ∉ loaded_ruins w) ps) as [Hkeys Hfresh].
  { subst ps. destruct (explore_ruins_flow_cases w)
      as [_ [(_ & _ & Hevs)|(_ & res & HW & _)]].
    - rewrite probes_log_or_detect by done. split; constructor.
    - apply Walk_fresh in HW as [? ?]. by split. }
  apply NoDup_app. split; [done|]. split.
  - intros k Hk (p & -> & Hp)%list_elem_of_fmap.
    apply list_elem_of_filter in Hp as [_ Hp].
    by eapply Forall_forall in Hfresh.
  - apply (sublist_NoDup _ (probe_key <$> ps)); [done|]. apply fmap_sublist, completed_sublist.
Qed.

Lemma explore_ruins_flow_keeps_no_duplicates_witness :
  NoDup (loaded_ruins (two_marches_world (Some ["15,149"])))
  ∧ loaded_ruins (explore_ruins_flow (two_marches_world (Some ["15,149"]))).2
    = ["15,149"; "33,175"; "34,110"]
  ∧ NoDup (loaded_ruins
             (explore_ruins_flow (two_marches_world (Some ["15,149"]))).2).
Proof.
  assert (NoDup (loaded_ruins (two_marches_world (Some ["15,149"])))) as Hnd
    by (apply (bool_decide_unpack _); by vm_compute).
  split; [exact Hnd|]. split; [by vm_compute|].
  exact (explore_ruins_flow_keeps_no_duplicates _ Hnd).
Defined.

Lemma Walk_saturated B cs st evs r :
  Walk B cs st evs r →
  (∀ x y, (x, y) ∈ cs → coord_key x y ∈ explored_ruins st) →
  Forall quiet_event evs ∧ r = Some st.
Proof.
  induction 1 as [st|cs st ?|q cs st evs r Hq _ IH|x y cs st evs r ? ? _ IH
                  |x y b logs cs st evs r ? Hkey Hlogs _ IH|x y cs st ? Hkey];
    intros Hall.
  - by split.
  - by split.
  - destruct (IH Hall) as [? ->]. split; [by apply Forall_app|done].
  - apply IH. intros x' y' Hin. apply Hall. by apply list_elem_of_further.
  - destruct Hkey. apply Hall, list_elem_of_here.
  - destruct Hkey. apply Hall, list_elem_of_here.
Qed.

(** A run on a file that lists the whole catalog. *)
Lemma explore_ruins_flow_saturated (w : World) :
  (∀ x y, (x, y) ∈ ruin_coordinates → coord_key x y ∈ loaded_ruins w) →
  (explore_ruins_flow w).1 = Val false
  ∧ probes (new_events w (explore_ruins_flow w).2) = []
  ∧ Forall (λ e, is_save e = false) (new_events w (explore_ruins_flow w).2)
  ∧ explored_file (explore_ruins_flow w).2 = explored_file w.
Proof.
  intros Hall.
  assert ((explore_ruins_flow w).1 = Val false
          ∧ Forall quiet_event (new_events w (explore_ruins_flow w).2))
    as [Hr Hq].
  { destruct (explore_ruins_flow_cases w)
      as [_ [(_ & Hr & Hevs)|(_ & res & HW & Hres)]].
    - split; [done|]. eapply Forall_impl; [done|]. apply log_or_detect_quiet.
    - destruct (Walk_saturated _ _ _ _ _ HW) as [Hq ->]; [done|].
      destruct Hres as [-> _]. by split. }
  split; [done|]. split; [by apply probes_quiet|]. split.
  - eapply Forall_impl; [done|]. apply quiet_event_not_save.
  - destruct (explore_ruins_flow_cases w) as [[_ _ _ _ ->] _].
    by apply last_save_quiet_events.
Qed.


(** X3: when the file already lists every coordinate of the catalog, a run
    searches nothing, writes nothing, leaves the file as it is and returns
    [False], whatever budget the probe gave. *)
Theorem explore_ruins_flow_nothing_left (w : World) :
  (∀ x y, (x, y) ∈ ruin_coordinates → coord_key x y ∈ loaded_ruins w) →
  (explore_ruins_flow w).1 = Val false
  ∧ probes (new_events w (explore_ruins_flow w).2) = []
  ∧ Forall (λ e, is_save e = false) (new_events w (explore_ruins_flow w).2)
  ∧ explored_file (explore_ruins_flow w).2 = explored_file w.
Proof. apply explore_ruins_flow_saturated. Qed.

Lemma all_explored_world_saturated x y :
  (x, y) ∈ ruin_coordinates → coord_key x y ∈ loaded_ruins all_explored_world.
Proof.
  intros Hin. unfold all_explored_world, loaded_ruins, two_marches_world.
  cbn [explored_file default]. apply list_elem_of_fmap. by exists (x, y).
Qed.

Lemma explore_ruins_flow_nothing_left_witness :
  (∀ x y, (x, y) ∈ ruin_coordinates →
          coord_key x y ∈ loaded_ruins all_explored_world)
  ∧ (count_available_marches all_explored_world).1 = Val 2
  ∧ (explore_ruins_flow all_explored_world).1 = Val false
  ∧ probes (new_events all_explored_world
              (explore_ruins_flow all_explored_world).2) = []
  ∧ Forall (λ e, is_save e = false)
      (new_events all_explored_world (explore_ruins_flow all_explored_world).2)
  ∧ explored_file (explore_ruins_flow all_explored_world).2
    = explored_file all_explored_world.
Proof.
  split; [exact all_explored_world_saturated|]. split; [by vm_compute|].
  exact (explore_ruins_flow_nothing_left all_explored_world
           all_explored_world_saturated).
Defined.

(** X4: a run that returns with a march to spare has walked the whole
    catalog: every coordinate of the catalog is then in the file. *)
Theorem explore_ruins_flow_spare_march_means_done
    (w : World) (B : Z) (b : bool) :
  (count_available_marches w).1 = Val B →
  (explore_ruins_flow w).1 = Val b →
  successes (probes (new_events w (explore_ruins_flow w).2)) < B →
  ∀ x y, (x, y) ∈ ruin_coordinates →
         coord_key x y ∈ loaded_ruins (explore_ruins_flow w).2.
Proof.
  intros HB%count_available_marches_val Hb Hlt x y Hin.
  rewrite explore_ruins_flow_final_set.
  destruct (explore_ruins_flow_cases w)
    as [_ [(Hzero & _ & Hevs)|(_ & res & HW & Hres)]].
  - rewrite probes_log_or_detect, successes_nil in Hlt by done. lia.
  - rewrite HB in HW.
    destruct res as [st|]; [|destruct Hres as [e He]; congruence].
    destruct (Walk_final _ _ _ _ _ HW) as (Hexp & Hused & Hall).
    cbn [initial_locals marches_used explored_ruins] in Hexp, Hused.
    rewrite completed_all, <- Hexp by done.
    eapply Walk_exhausted; [done| |done]. lia.
Qed.

Lemma explore_ruins_flow_spare_march_means_done_witness :
  (count_available_marches all_explored_world).1 = Val 2
  ∧ (explore_ruins_flow all_explored_world).1 = Val false
  ∧ successes (probes (new_events all_explored_world
                         (explore_ruins_flow all_explored_world).2)) < 2
  ∧ ∀ x y, (x, y) ∈ ruin_coordinates →
           coord_key x y
           ∈ loaded_ruins (explore_ruins_flow all_explored_world).2.
Proof.
  assert ((count_available_marches all_explored_world).1 = Val 2) as HB
    by (by vm_compute).
  destruct (explore_ruins_flow_saturated all_explored_world
              all_explored_world_saturated) as (Hr & Hps & _).
  assert (successes (probes (new_events all_explored_world
                               (explore_ruins_flow all_explored_world).2)) < 2)
    as Hlt by (rewrite Hps; by vm_compute).
  split; [exact HB|]. split; [exact Hr|]. split; [exact Hlt|].
  exact (explore_ruins_flow_spare_march_means_done all_explored_world 2 false
           HB Hr Hlt).
Defined.

(** ** Keys of the explored set *)

Lemma pretty_N_char_comma_free x : pretty_N_char x ≠ ","%char.
Proof. unfold pretty_N_char. by repeat case_match. Qed.

Lemma pretty_N_go_comma_free x s : comma_free s → comma_free (pretty_N_go x s).
Proof.
  revert s. induction (N.lt_wf_0 x) as [x _ IH]; intros s Hs.
  destruct (decide (x = 0)%N) as [->|Hx]; [by rewrite pretty_N_go_0|].
  rewrite pretty_N_go_step by lia. apply IH.
  - apply N.div_lt; lia.
  - split; [apply pretty_N_char_comma_free|done].
Qed.

Lemma pretty_Z_comma_free (z : Z) : comma_free (pretty z).
Proof.
  destruct z as [|p|p]; [by repeat split|..].
  - by apply pretty_N_go_comma_free.
  - split; [done|]. by apply pretty_N_go_comma_free.
Qed.

Lemma comma_separated_inj a a' b b' :
  comma_free a → comma_free a' →
  a +:+ "," +:+ b = a' +:+ "," +:+ b' → a = a' ∧ b = b'.
Proof.
  revert a'. induction a as [|c a IH]; intros [|c' a'] Ha Ha' Heq;
    cbn in Heq, Ha, Ha'.
  - by simplify_eq.
  - destruct Ha' as [? _]. by simplify_eq.
  - destruct Ha as [? _]. by simplify_eq.
  - destruct Ha as [_ Ha], Ha' as [_ Ha']. injection Heq as -> Heq.
    destruct (IH a' Ha Ha' Heq) as [-> ->]. done.
Qed.

(** X5: two different coordinates never have the same key ["x,y"], so the
    explored set cannot mistake one coordinate for another. *)
Theorem coord_key_injective (x y x' y' : Z) :
  coord_key x y = coord_key x' y' → x = x' ∧ y = y'.
Proof.
  unfold coord_key. intros Heq.
  apply comma_separated_inj in Heq as [Hx Hy];
    [|apply pretty_Z_comma_free..].
  split; by apply (inj pretty).
Qed.

Lemma coord_key_injective_witness :
  coord_key 15 149 = coord_key 15 149 ∧ 15 = 15 ∧ 149 = 149.
Proof.
  split; [reflexivity|]. exact (coord_key_injective 15 149 15 149 eq_refl).
Defined.

(** ** [input_coordinate]: what is typed *)

(** Runs the monad's combinators and unrolls the loops over explicit lists. *)
Ltac run_loops :=
  cbv beta iota zeta delta
    [fn call traced mbind mret Body_bind Body_ret PyMonad.bind pure return_
     raise try_except gets emit advance sleep write_file log print
     device_shell bot config env tick explored_file trace device
     gui_detector fst snd negb for_each seq].

Ltac run_case' :=
  match goal with
  | |- context [shell_raises ?e ?t ?c] => destruct (shell_raises e t c) eqn:?
  end.
Ltac run_cases' := repeat (run_case'; run_loops).

(** What [input_coordinate] sends to the device. *)
Lemma input_coordinate_typed
    (coord_type value : string) (w : World) :
  let r := input_coordinate coord_type value w in
  let evs := new_events w r.2 in
  (r.1 = Val true →
   shells evs
   = (λ cmd, (cmd, true))
     <$> field_tap coord_type
         ++ ["input keyevent KEYCODE_DEL"; "input keyevent KEYCODE_DEL";
             "input keyevent KEYCODE_DEL"; "input keyevent KEYCODE_DEL";
             "input text " +:+ value; "input keyevent KEYCODE_ENTER"])
  ∧ (r.1 = Val false →
     EvLog ("✗ Error inputting " +:+ coord_type +:+ " coordinate: ") ∈ evs)
  ∧ (∀ e, r.1 = Err e →
       shells evs = (λ cmd, (cmd, false)) <$> field_tap coord_type
       ∨ (device (bot w) = false ∧ shells evs = []))
  ∧ (length (shells evs) ≤ 7)%nat.
Proof.
  intros r evs. subst r evs. unfold input_coordinate, field_tap.
  destruct w as [[dev gui] cfg e t f tr].
  destruct (bool_decide (coord_type = "X")) eqn:HX;
    [|destruct (bool_decide (coord_type = "Y")) eqn:HY];
    destruct dev; run_loops; run_cases'.
  all: unfold new_events; cbn [trace]; rewrite <- ?app_assoc,
         ?drop_app_length; cbn [app].
  all: unfold shells; cbn [omap list_omap fmap list_fmap length].
  all: repeat split; try (intros; discriminate); try lia.
  all: try (intros _; set_mem).
  all: intros; auto.
Qed.

(** X6: when [input_coordinate] returns [True] it has sent, in this order
    and without a failure, the tap on the field (for "X" or "Y"), four
    deletions, the text and the enter key, and nothing else. When it returns
    [False] it has logged the error. When it raises, it is the tap on the
    field that failed, and nothing was typed. It never sends more than seven
    commands. *)
Theorem input_coordinate_keystrokes
    (coord_type value : string) (w : World) :
  let r := input_coordinate coord_type value w in
  let evs := new_events w r.2 in
  (r.1 = Val true →
   shells evs
   = (λ cmd, (cmd, true))
     <$> field_tap coord_type
         ++ ["input keyevent KEYCODE_DEL"; "input keyevent KEYCODE_DEL";
             "input keyevent KEYCODE_DEL"; "input keyevent KEYCODE_DEL";
             "input text " +:+ value; "input keyevent KEYCODE_ENTER"])
  ∧ (r.1 = Val false →
     EvLog ("✗ Error inputting " +:+ coord_type +:+ " coordinate: ") ∈ evs)
  ∧ (∀ e, r.1 = Err e →
       shells evs = (λ cmd, (cmd, false)) <$> field_tap coord_type
       ∨ (device (bot w) = false ∧ shells evs = []))
  ∧ (length (shells evs) ≤ 7)%nat.
Proof. apply input_coordinate_typed. Qed.

(** ** [click_element]: where it taps *)

Lemma shells_app evs1 evs2 : shells (evs1 ++ evs2) = shells evs1 ++ shells evs2.
Proof. apply omap_app. Qed.

Lemma detections_app evs1 evs2 :
  detections (evs1 ++ evs2) = detections evs1 ++ detections evs2.
Proof. apply omap_app. Qed.

Lemma click_attempt_tap name ec max thr attempt w :
  device (bot w) = true →
  ∃ evs, extends w (click_attempt name ec max thr attempt () w).2 evs
    ∧ match (click_attempt name ec max thr attempt () w).1 with
      | Next _ => shells evs = []
      | Ret b =>
          ∃ cx cy,
            detections evs
            = [(image_path ec, search_area ec, default thr (threshold ec),
                Some (cx, cy))]
            ∧ shells evs = [(tap_command name cx cy, b)]
      | Exc _ => False
      end.
Proof.
  unfold click_attempt, detect_ui_element_in_area, click_coordinate,
    tap_command.
  destruct w as [[dev gui] cfg e t f tr]. cbn [bot device]. intros ->.
  destruct gui; run_py; run_cases.
  all: eexists; (split; [solve_extends|]).
  all: cbn [app shells detections omap]; try done.
  all: by eexists _, _.
Qed.

Lemma click_loop_tap name ec max thr l w :
  device (bot w) = true →
  ∃ evs, extends w (for_each l (click_attempt name ec max thr) () w).2 evs
    ∧ match (for_each l (click_attempt name ec max thr) () w).1 with
      | Next _ => shells evs = []
      | Ret b =>
          ∃ cx cy d,
            last (detections evs) = Some d ∧ d.2 = Some (cx, cy)
            ∧ shells evs = [(tap_command name cx cy, b)]
      | Exc _ => False
      end.
Proof.
  revert w. induction l as [|attempt l IH]; intros w Hdev.
  { exists []. split; [apply extends_refl|done]. }
  cbn [for_each]. unfold bind.
  destruct (click_attempt_tap name ec max thr attempt w Hdev)
    as (evs1 & Hext1 & H1).
  destruct (click_attempt name ec max thr attempt () w) as [[c|b|e] w1];
    cbn [fst snd] in *; [| |done].
  - destruct c as [[]|[]]; [|by exists evs1].
    assert (device (bot w1) = true) as Hdev1
      by (destruct Hext1 as [-> _ _ _ _]; done).
    destruct (IH w1 Hdev1) as (evs2 & Hext2 & H2).
    exists (evs1 ++ evs2). split; [by eapply extends_trans|].
    rewrite shells_app, detections_app, H1.
    destruct (for_each l _ () w1) as [[[]|b|e] w2]; cbn [fst snd] in *;
      [done| |done].
    destruct H2 as (cx & cy & d & Hlast & Hd & Hs).
    exists cx, cy, d. rewrite last_app, Hlast. done.
  - destruct H1 as (cx & cy & Hd & Hs). exists evs1. split; [done|].
    exists cx, cy. eexists. rewrite Hd. done.
Qed.

(** Replaces [new_events w w'] by the events of the steps from [w] to
    [w']. *)
Ltac events_by_chain :=
  match goal with
  | |- context [new_events ?w ?w'] =>
      let H := fresh in
      eassert (extends w w' _) as H by first [chain | solve_extends];
      rewrite (extends_new_events _ _ _ H); clear H
  end.

(** What [click_element] sends to the device. *)
Lemma click_element_tap
    (w : World) (element_name : string) (max_attempts : Z) (thr : Q) :
  let r := click_element element_name max_attempts thr w in
  let evs := new_events w r.2 in
  (shells evs = [] ∧ r.1 = Val false)
  ∨ (∃ cx cy d b,
       last (detections evs) = Some d ∧ d.2 = Some (cx, cy)
       ∧ shells evs = [(tap_command element_name cx cy, b)]
       ∧ r.1 = Val b).
Proof.
  intros r evs. subst r evs. unfold click_element.
  destruct w as [[dev gui] cfg e t f tr]. run_top.
  destruct dev; run_top.
  2:{ left. events_by_chain. by split. }
  destruct (config_get cfg element_name) as [ec|] eqn:Hcfg; run_top.
  2:{ left. events_by_chain. by split. }
  match goal with
  | |- context [for_each ?l ?body () ?w] =>
      destruct (click_loop_tap element_name ec max_attempts thr l w eq_refl)
        as (evs1 & Hext1 & H1);
      destruct (for_each l body () w) as [[[]|b|ex] w1]
  end; cbn [fst snd] in *; [| |done].
  - left.
    events_by_chain.
    rewrite !shells_app, H1. by split.
  - right. destruct H1 as (cx & cy & d & Hlast & Hd & Hs).
    exists cx, cy, d, b.
    events_by_chain.
    rewrite !shells_app, !detections_app, Hs, app_nil_l.
    cbn [shells detections omap]. rewrite !app_nil_r. done.
Qed.

(** X7: [click_element] taps at most once, and only where the matcher last
    reported the element (45 further right for [coordX] and [coordY]); its
    result is whether that tap went through. Without a tap it returns
    [False]. *)
Theorem click_element_taps_where_found
    (w : World) (element_name : string) (max_attempts : Z) (thr : Q) :
  let r := click_element element_name max_attempts thr w in
  let evs := new_events w r.2 in
  (shells evs = [] ∧ r.1 = Val false)
  ∨ (∃ cx cy d b,
       last (detections evs) = Some d ∧ d.2 = Some (cx, cy)
       ∧ shells evs = [(tap_command element_name cx cy, b)]
       ∧ r.1 = Val b).
Proof. apply click_element_tap. Qed.

(** ** [count_available_marches]: what it reads and what it leaves *)

(** X8: [count_available_marches] only looks: it asks the matcher at most
    twice, sends nothing to the device, writes no file and leaves the bot, the
    configuration and the explored file as they are. With a device its result
    is 2 minus the number of those detections that found their indicator;
    without one it is 0 and nothing is asked. *)
Theorem count_available_marches_reads_only (w : World) :
  let r := count_available_marches w in
  let evs := new_events w r.2 in
  (length (detections evs) ≤ 2)%nat
  ∧ Forall (λ e, is_log e ∨ is_detect e) evs
  ∧ bot r.2 = bot w ∧ config r.2 = config w
  ∧ explored_file r.2 = explored_file w
  ∧ r.1 = Val (if device (bot w)
               then 2 - Z.of_nat (length (filter (λ d, is_Some d.2)
                                            (detections evs)))
               else 0)
  ∧ (device (bot w) = false → detections evs = []).
Proof.
  intros r evs. subst r evs.
  unfold count_available_marches, detect_ui_element_in_area.
  destruct w as [[dev gui] cfg e t f tr]. run_py.
  destruct dev; run_py;
    [destruct (config_get cfg "MarchNb1") as [ec1|],
       (config_get cfg "MarchNb2") as [ec2|]; run_py;
     destruct gui; run_py; run_cases|].
  all: unfold new_events; cbn [trace]; rewrite <- ?app_assoc,
         ?drop_app_length, ?drop_all; cbn [app].
  all: split; [cbn; lia|]. all: split; [solve_Forall|].
  all: do 3 (split; [done|]).
  all: split; [|intros; first [discriminate|done]].
  all: unfold detections; cbn [omap filter list_filter length]; try done.
Qed.

(** ** The file helpers and the two taps of [MinimalBot] *)


(** X10: [tap_screen] and [click_coordinate] do the same to the device: both
    send the single command ["input tap x y"] when a device is connected and
    nothing otherwise, neither raises, and both return whether the command
    went through. *)
Theorem tap_screen_like_click_coordinate (x y : Z) (w : World) :
  let cmd := "input tap " +:+ pretty x +:+ " " +:+ pretty y in
  ∃ b : bool,
    (tap_screen x y w).1 = Val b
    ∧ (click_coordinate x y w).1 = Val b
    ∧ shells (new_events w (tap_screen x y w).2)
      = shells (new_events w (click_coordinate x y w).2)
    ∧ shells (new_events w (click_coordinate x y w).2)
      = (if device (bot w) then [(cmd, b)] else [])
    ∧ (device (bot w) = false → b = false).
Proof.
  intros cmd. subst cmd. unfold tap_screen, click_coordinate.
  destruct w as [[dev gui] cfg e t f tr]. destruct dev; run_py; run_cases.
  all: eexists; (split; [reflexivity|]); (split; [reflexivity|]).
  all: unfold new_events; cbn [trace]; rewrite <- ?app_assoc,
         ?drop_app_length, ?drop_all.
  all: by repeat split.
Qed.

(** ** [search_ruin_at_coordinate]: what a successful search sends *)

Lemma shells_plain_call inner c r :
  shells (inner ++ [EvCall c r]) = shells inner.
Proof. rewrite shells_app. apply app_nil_r. Qed.

Lemma input_coordinate_run coord_type value w :
  ∃ inner,
    extends w (input_coordinate coord_type value w).2
      (inner ++ [EvCall (CInputCoordinate coord_type value)
                   (result_of (input_coordinate coord_type value w).1)])
    ∧ ((input_coordinate coord_type value w).1 = Val true →
       shells inner
       = (λ cmd, (cmd, true))
         <$> field_tap coord_type
             ++ ["input keyevent KEYCODE_DEL"; "input keyevent KEYCODE_DEL";
                 "input keyevent KEYCODE_DEL"; "input keyevent KEYCODE_DEL";
                 "input text " +:+ value; "input keyevent KEYCODE_ENTER"]).
Proof.
  destruct (input_coordinate_one_call coord_type value w)
    as (inner & Hext & _).
  exists inner. split; [done|]. intros Hr.
  destruct (input_coordinate_typed coord_type value w) as (Hs & _).
  rewrite (extends_new_events _ _ _ Hext), shells_plain_call in Hs. auto.
Qed.

Lemma click_element_run_tap name max thr w :
  ∃ b inner,
    (click_element name max thr w).1 = Val b
    ∧ extends w (click_element name max thr w).2
        (inner ++ [EvCall (CClickElement name max thr) (Some b)])
    ∧ (b = true → ∃ cx cy, shells inner = [(tap_command name cx cy, true)]).
Proof.
  destruct (click_element_run name max thr w) as (b & inner & Hr & Hext & _).
  exists b, inner. split; [done|]. split; [done|]. intros ->.
  pose proof (click_element_tap w name max thr) as Htap. cbv zeta in Htap.
  rewrite (extends_new_events _ _ _ Hext), shells_plain_call, Hr in Htap.
  destruct Htap as [[_ [=]]|(cx & cy & d & b & _ & _ & Hs & [= <-])].
  by exists cx, cy.
Qed.

Lemma device_shell_run_ok {R} cmd w :
  ∃ evs, extends w (device_shell (R:=R) cmd w).2 evs
    ∧ (((device_shell (R:=R) cmd w).1 = Next () ∧ shells evs = [(cmd, true)])
       ∨ ∃ e, (device_shell (R:=R) cmd w).1 = Exc e).
Proof.
  unfold device_shell. destruct w as [[dev gui] cfg e t f tr]. run_py.
  destruct dev; run_py.
  - destruct (shell_raises e t cmd); run_py.
    + eexists. split; [solve_extends|]. right. by eexists.
    + eexists. split; [solve_extends|]. left. by split.
  - exists []. split; [apply extends_refl|]. right. by eexists.
Qed.

Ltac step_input_typed :=
  match goal with
  | |- context [input_coordinate ?ct ?v ?w] =>
      let inner := fresh "inner" in
      let Hext := fresh "Hext" in
      let Hs := fresh "Htyped" in
      destruct (input_coordinate_run ct v w) as (inner & Hext & Hs);
      destruct (input_coordinate ct v w) as [[[]|?] ?];
      cbn [fst snd result_of] in Hext, Hs; run_top
  end.
Ltac step_shell_ok :=
  match goal with
  | |- context [@device_shell ?R ?cmd ?w] =>
      let evs := fresh "evs" in
      let Hext := fresh "Hext" in
      let Hr := fresh "Hr" in
      let Hs := fresh "Hsent" in
      destruct (device_shell_run_ok (R:=R) cmd w)
        as (evs & Hext & [[Hr Hs]|[? Hr]]);
      destruct (@device_shell R cmd w) as [? ?];
      cbn [fst snd] in Hext, Hr; rewrite Hr; clear Hr; run_top
  end.
Ltac step_click_tap :=
  match goal with
  | |- context [click_element ?n ?m ?t ?w] =>
      let b := fresh "b" in
      let inner := fresh "inner" in
      let Hext := fresh "Hext" in
      let Hs := fresh "Htap" in
      let Hr := fresh "Hr" in
      destruct (click_element_run_tap n m t w) as (b & inner & Hr & Hext & Hs);
      destruct (click_element n m t w) as [? ?];
      cbn [fst snd] in Hext, Hr; rewrite Hr; clear Hr; destruct b; run_top
  end.

(** X11: a ruin search that returns [True] has sent to the device exactly:
    the tap on the X field, four deletions, the digits of [x], enter; the same
    for Y with the digits of [y]; the tap on the search button; the tap on
    the middle of the map; and one tap where the explore button was
    found. Every one of these commands went through. *)
Theorem search_ruin_sends (x y : Z) (w : World) :
  (search_ruin_at_coordinate x y w).1 = Val true →
  ∃ cx cy,
    shells (new_events w (search_ruin_at_coordinate x y w).2)
    = (λ cmd, (cmd, true))
      <$> ["input tap 835 41";
           "input keyevent KEYCODE_DEL"; "input keyevent KEYCODE_DEL";
           "input keyevent KEYCODE_DEL"; "input keyevent KEYCODE_DEL";
           "input text " +:+ pretty x; "input keyevent KEYCODE_ENTER";
           "input tap 965 41";
           "input keyevent KEYCODE_DEL"; "input keyevent KEYCODE_DEL";
           "input keyevent KEYCODE_DEL"; "input keyevent KEYCODE_DEL";
           "input text " +:+ pretty y; "input keyevent KEYCODE_ENTER";
           "input tap 1061 41"; "input tap 951 313";
           tap_command "exploreNew" cx cy].
Proof.
  unfold search_ruin_at_coordinate.
  assert (∀ m1 m2 : Py bool, m1 w = m2 w →
            traced (CSearchRuin x y) m1 w = traced (CSearchRuin x y) m2 w)
    as Htr by (intros m1 m2 Hm; unfold traced; by rewrite Hm).
  rewrite (Htr _ (fn (search_ruin_head x y;; return_ false))).
  2:{ unfold fn.
      by rewrite (never_falls_through_seq _ _ (return_ false) w
                    (search_ruin_head_never_falls_through x y)). }
  clear Htr. unfold search_ruin_head. run_top.
  step_input_typed;
    [step_input_typed;
       [step_shell_ok; [step_shell_ok; [step_click_tap|]|]|..]|..].
  all: try (intros [=]; fail).
  intros _. destruct (Htap eq_refl) as (cx & cy & Hclick). exists cx, cy.
  events_by_chain.
  rewrite !shells_app, (Htyped eq_refl), (Htyped0 eq_refl), Hsent, Hsent0,
    Hclick.
  reflexivity.
Qed.

Lemma search_ruin_sends_witness :
  (search_ruin_at_coordinate 15 149 (two_marches_world None)).1 = Val true
  ∧ ∃ cx cy,
      shells (new_events (two_marches_world None)
                (search_ruin_at_coordinate 15 149 (two_marches_world None)).2)
      = (λ cmd, (cmd, true))
        <$> ["input tap 835 41";
             "input keyevent KEYCODE_DEL"; "input keyevent KEYCODE_DEL";
             "input keyevent KEYCODE_DEL"; "input keyevent KEYCODE_DEL";
             "input text " +:+ pretty 15; "input keyevent KEYCODE_ENTER";
             "input tap 965 41";
             "input keyevent KEYCODE_DEL"; "input keyevent KEYCODE_DEL";
             "input keyevent KEYCODE_DEL"; "input keyevent KEYCODE_DEL";
             "input text " +:+ pretty 149; "input keyevent KEYCODE_ENTER";
             "input tap 1061 41"; "input tap 951 313";
             tap_command "exploreNew" cx cy].
Proof.
  split; [by vm_compute|].
  apply (search_ruin_sends 15 149 (two_marches_world None)). by vm_compute.
Defined.

(** ** Navigation in the city *)

Lemma clicks_app evs1 evs2 : clicks (evs1 ++ evs2) = clicks evs1 ++ clicks evs2.
Proof.
  unfold clicks, element_clicks. by rewrite calls_app, omap_app, fmap_app.
Qed.

Lemma clicks_plain evs : Forall plain_event evs → clicks evs = [].
Proof. intros H. unfold clicks, element_clicks. by rewrite calls_plain. Qed.

Lemma shells_no_call evs :
  Forall (λ e, match e with EvShell _ _ => False | _ => True end) evs →
  shells evs = [].
Proof.
  induction 1 as [|e evs He _ IH]; [done|]. destruct e; try done; exact IH.
Qed.

(** A call of [click_element], as a step of a run. *)
Lemma click_element_click name max thr w :
  ∃ b evs,
    (click_element name max thr w).1 = Val b
    ∧ extends w (click_element name max thr w).2 evs
    ∧ clicks evs = [(name, Some b)].
Proof.
  destruct (click_element_run name max thr w) as (b & inner & Hr & Hext & Hp).
  exists b, (inner ++ [EvCall (CClickElement name max thr) (Some b)]).
  split; [done|]. split; [done|].
  by rewrite clicks_app, (clicks_plain inner).
Qed.

(** A call of [is_in_city], as a step of a run. *)
Lemma is_in_city_run w :
  ∃ b evs,
    (is_in_city w).1 = Val b
    ∧ extends w (is_in_city w).2 evs
    ∧ Forall plain_event evs
    ∧ shells evs = []
    ∧ (length (detections evs) ≤ 1)%nat
    ∧ (b = true ↔ ∃ d c, detections evs = [d] ∧ d.2 = Some c)
    ∧ (device (bot w) = false → b = false ∧ evs = []).
Proof.
  unfold is_in_city, detect_ui_element_in_area.
  destruct w as [[dev gui] cfg e t f tr]. run_py.
  destruct dev; run_py;
    [destruct (config_get cfg "map_button") as [ec|]; run_py;
       [destruct gui; run_py;
          [destruct (screen_match e t _ _ _) as [c|]; run_py|]|]|].
  1: exists true. 2-5: exists false.
  all: eexists; (split; [done|]);
         (split; [first [apply extends_refl | solve_extends]|]).
  all: repeat split; try done; try solve_Forall; try (cbn; lia).
  all: try (by intros (? & ? & [=] & _)).
  all: try (by intros (? & ? & [= <-] & [=])).
  all: try (intros _; by eexists _, _).
Qed.

Lemma clicks_log msg evs : clicks (EvLog msg :: evs) = clicks evs.
Proof. done. Qed.

Lemma detections_log msg evs : detections (EvLog msg :: evs) = detections evs.
Proof. done. Qed.

Lemma shells_log msg evs : shells (EvLog msg :: evs) = shells evs.
Proof. done. Qed.

Ltac step_element :=
  match goal with
  | |- context [click_element ?n ?m ?t ?w] =>
      let b := fresh "b" in
      let evs := fresh "evs" in
      let Hext := fresh "Hext" in
      let Hc := fresh "Hclick" in
      let Hr := fresh "Hr" in
      destruct (click_element_click n m t w) as (b & evs & Hr & Hext & Hc);
      destruct (click_element n m t w) as [? ?];
      cbn [fst snd] in Hext, Hr; rewrite Hr; clear Hr; destruct b; run_top
  end.
Ltac step_city :=
  match goal with
  | |- context [is_in_city ?w] =>
      let b := fresh "b" in
      let evs := fresh "evs" in
      let Hext := fresh "Hext" in
      let Hc := fresh "Hclick" in
      let Hs := fresh "Hshell" in
      let Hd := fresh "Hdetect" in
      let Hr := fresh "Hr" in
      destruct (is_in_city_run w)
        as (b & evs & Hr & Hext & Hc%clicks_plain & Hs & _ & Hd & _);
      destruct (is_in_city w) as [? ?];
      cbn [fst snd] in Hext, Hr; rewrite Hr; clear Hr; destruct b; run_top
  end.

(** Chooses the alternative that holds. *)
Ltac pick := first [done | left; pick | right; pick].

(** The clicks of the events of a run, from those of its steps. *)
Ltac clicks_of_steps :=
  rewrite ?clicks_app;
  repeat match goal with
         | H : clicks ?e = _ |- context [clicks ?e] => rewrite H
         end;
  rewrite ?clicks_log; change (clicks []) with (@nil (string * option bool));
  cbn [app].

Lemma reset_to_city_run clock lr w :
  ∃ b lr' evs,
    (reset_to_city clock lr w).1 = Val (b, lr')
    ∧ extends w (reset_to_city clock lr w).2 evs
    ∧ (clicks evs = [missed "map_button"] ∧ b = false
       ∨ clicks evs = [clicked "map_button"; missed "home_button"] ∧ b = false
       ∨ clicks evs = [clicked "map_button"; clicked "home_button"])
    ∧ (b = true →
       lr' = clock (tick (reset_to_city clock lr w).2)
       ∧ ∃ d c, last (detections evs) = Some d ∧ d.2 = Some c)
    ∧ (b = false → lr' = lr).
Proof.
  unfold reset_to_city. run_top.
  step_element; [step_element; [step_city|]|].
  all: eexists _, _, _; (split; [reflexivity|]); (split; [chain|]).
  all: clicks_of_steps.
  all: split; [pick|]; split; [|done]; try done.
  intros _. split; [done|].
  destruct (proj1 Hdetect eq_refl) as (d & c & Hd & Hc). exists d, c.
  rewrite detections_log, !detections_app, Hd.
  change (detections [EvLog _])
    with (@nil (string * option Area * Q * option (Z * Z))).
  by rewrite app_nil_r, last_snoc.
Qed.

Lemma ensure_in_city_run clock lr w :
  ∃ b lr' evs,
    (ensure_in_city clock lr w).1 = Val (b, lr')
    ∧ extends w (ensure_in_city clock lr w).2 evs
    ∧ (clicks evs = [] ∧ b = true ∧ lr' = lr
       ∨ clicks evs = [missed "map_button"] ∧ b = false
       ∨ clicks evs = [clicked "map_button"; missed "home_button"] ∧ b = false
       ∨ clicks evs = [clicked "map_button"; clicked "home_button"]).
Proof.
  unfold ensure_in_city. run_top. step_city.
  { eexists _, _, _. split; [reflexivity|]. split; [chain|].
    clicks_of_steps. pick. }
  match goal with
  | |- context [reset_to_city clock lr ?w] =>
      destruct (reset_to_city_run clock lr w)
        as (b & lr' & evs1 & Hr & Hext1 & Hc & _);
      destruct (reset_to_city clock lr w) as [? ?];
      cbn [fst snd] in Hext1, Hr; rewrite Hr; clear Hr; run_top
  end.
  eexists _, _, _. split; [reflexivity|]. split; [chain|].
  destruct Hc as [[Hc ->]|[[Hc ->]|Hc]]; clicks_of_steps; pick.
Qed.

Ltac step_reset :=
  match goal with
  | |- context [reset_to_city ?c ?lr ?w] =>
      let b := fresh "b" in
      let lr' := fresh "lr'" in
      let evs := fresh "evs" in
      let Hext := fresh "Hext" in
      let Hc := fresh "Hclick" in
      let Hr := fresh "Hr" in
      destruct (reset_to_city_run c lr w)
        as (b & lr' & evs & Hr & Hext & Hc & _);
      destruct (reset_to_city c lr w) as [? ?];
      cbn [fst snd] in Hext, Hr; rewrite Hr; clear Hr;
      destruct Hc as [[Hc ->]|[[Hc ->]|Hc]]; [| |destruct b]; run_top
  end.
Ltac step_ensure :=
  match goal with
  | |- context [ensure_in_city ?c ?lr ?w] =>
      let b := fresh "b" in
      let lr' := fresh "lr'" in
      let evs := fresh "evs" in
      let Hext := fresh "Hext" in
      let Hc := fresh "Hclick" in
      let Hr := fresh "Hr" in
      destruct (ensure_in_city_run c lr w)
        as (b & lr' & evs & Hr & Hext & Hc);
      destruct (ensure_in_city c lr w) as [? ?];
      cbn [fst snd] in Hext, Hr; rewrite Hr; clear Hr;
      destruct Hc as [(Hc & -> & ->)|[[Hc ->]|[[Hc ->]|Hc]]];
      [| | |destruct b]; run_top
  end.

(** The end of a run: its result, and its events from its steps. *)
Ltac end_of_run :=
  eexists _, _, _; (split; [reflexivity|]); (split; [chain|]);
  clicks_of_steps.

(** Refutes a membership in an explicit list. *)
Ltac refute_mem H :=
  repeat (apply elem_of_cons in H as [H|H]; [by discriminate H|]);
  by apply elem_of_nil in H.

Lemma go_to_research_area_run clock lr w :
  ∃ b lr' evs,
    (go_to_research_area clock lr w).1 = Val (b, lr')
    ∧ extends w (go_to_research_area clock lr w).2 evs
    ∧ (b = true ↔
       clicks evs
       = [clicked "Castle"; clicked "Castle"; clicked "ResearchArea"]
       ∨ clicks evs
         = [clicked "map_button"; clicked "home_button";
            clicked "Castle"; clicked "Castle"; clicked "ResearchArea"])
    ∧ (clicked "Castle" ∉ clicks evs → missed "Castle" ∈ clicks evs →
       ∃ res pre post,
         clicks evs
         = pre ++ missed "Castle" :: ("map_button", res) :: post).
Proof.
  unfold go_to_research_area. run_top.
  step_ensure.
  all: try (step_element; [step_element; [step_element|]|step_reset]).
  all: end_of_run.
  all: split; [split; [first [by intros [=] | intros _; pick]
                      |by intros [?|?]]|].
  all: intros Hn Hin.
  all: first [ by exfalso; apply Hn; set_mem
             | by exfalso; clear Hn; refute_mem Hin
             | by eexists _, [], _
             | by eexists _, [_; _], _ ].
Qed.

Lemma go_to_dragon_panel_run clock lr w :
  ∃ b lr' evs,
    (go_to_dragon_panel clock lr w).1 = Val (b, lr')
    ∧ extends w (go_to_dragon_panel clock lr w).2 evs
    ∧ (∃ res rest, clicks evs = ("map_button", res) :: rest)
    ∧ (b = true ↔
       clicks evs
       = [clicked "map_button"; clicked "home_button";
          clicked "Castle"; clicked "DragonPanel"]
       ∨ clicks evs
         = [clicked "map_button"; clicked "home_button";
            clicked "map_button"; clicked "home_button";
            clicked "Castle"; clicked "DragonPanel"]).
Proof.
  unfold go_to_dragon_panel. run_top.
  step_ensure.
  all: try (step_reset; try (step_element; [step_element|])).
  all: end_of_run.
  all: split; [by eexists _, _|].
  all: split; [first [by intros [=] | intros _; pick]|by intros [?|?]].
Qed.

Lemma go_to_shipment_collect_run clock lr w :
  ∃ b lr' evs,
    (go_to_shipment_collect clock lr w).1 = Val (b, lr')
    ∧ extends w (go_to_shipment_collect clock lr w).2 evs
    ∧ (b = true ↔ clicked "ShipmentCollect" ∈ clicks evs)
    ∧ (clicked "WareHouse" ∈ clicks evs →
       ∃ res, last (clicks evs) = Some ("BackButton", res))
    ∧ (∀ res, ("GoldPickup", res) ∈ clicks evs →
       ∃ res', ("DwelingArea", res') ∈ clicks evs)
    ∧ (∀ res, ("ShipmentClaim", res) ∈ clicks evs →
       clicked "ShipmentCollect" ∈ clicks evs)
    ∧ (∀ res, ("ShipmentContinue", res) ∈ clicks evs →
       clicked "ShipmentClaim" ∈ clicks evs).
Proof.
  unfold go_to_shipment_collect. run_top.
  step_ensure.
  all: try (step_reset;
            try (step_element;
                 (step_element;
                  [step_element;
                   [step_element;
                    [step_element; [step_element|]; step_element
                    |step_element]|]|]))).
  all: end_of_run.
  all: split; [split; [first [by intros [=] | intros _; set_mem]
                      |intros Hin; first [done | refute_mem Hin]]|].
  all: split; [intros Hin; first [by eexists | refute_mem Hin]|].
  all: split; [intros res Hin;
               first [by eexists; set_mem | refute_mem Hin]|].
  all: split; intros res Hin; first [by set_mem | refute_mem Hin].
Qed.

Lemma click_panel_run clock what panel lr w :
  ∃ b lr' evs,
    (click_panel clock what panel lr w).1 = Val (b, lr')
    ∧ extends w (click_panel clock what panel lr w).2 evs
    ∧ (b = true ↔
       clicks evs = [clicked panel]
       ∨ clicks evs
         = [clicked "map_button"; clicked "home_button"; clicked panel]).
Proof.
  unfold click_panel. run_top.
  step_ensure.
  all: try step_element.
  all: end_of_run.
  all: split; [first [by intros [=] | intros _; pick]|by intros [?|?]].
Qed.






(** X14: [ensure_in_city] returns. When [is_in_city] answers [True] it
    returns [True] and does nothing more: the world is as [is_in_city] left
    it and [last_reset] is unchanged. When [is_in_city] answers [False] its
    first click is the map button's, the start of a reset. *)
Theorem ensure_in_city_resets_only_when_lost
    (clock : nat → Q) (last_reset : Q) (w : World) :
  let r := ensure_in_city clock last_reset w in
  let evs := new_events w r.2 in
  ∃ b last_reset',
    r.1 = Val (b, last_reset')
    ∧ ((is_in_city w).1 = Val true →
       b = true ∧ last_reset' = last_reset ∧ r.2 = (is_in_city w).2
       ∧ clicks evs = [])
    ∧ ((is_in_city w).1 = Val false →
       ∃ res rest, clicks evs = ("map_button", res) :: rest).
Proof.
  intros r evs. subst r evs. unfold ensure_in_city. run_top. step_city.
  { eexists _, _. split; [reflexivity|]. split; [|by intros [=]].
    intros _. do 3 (split; [done|]). events_by_chain. by clicks_of_steps. }
  match goal with
  | |- context [reset_to_city clock last_reset ?w] =>
      destruct (reset_to_city_run clock last_reset w)
        as (b & lr' & evs1 & Hr & Hext1 & Hc & _);
      destruct (reset_to_city clock last_reset w) as [? ?];
      cbn [fst snd] in Hext1, Hr; rewrite Hr; clear Hr; run_top
  end.
  eexists _, _. split; [reflexivity|]. split; [by intros [=]|].
  intros _. events_by_chain.
  destruct Hc as [[Hc _]|[[Hc _]|Hc]]; clicks_of_steps; by eexists _, _.
Qed.

(** X15: [go_to_research_area] returns, and returns [True] exactly when its
    clicks are Castle, Castle and ResearchArea, all successful, after no
    click at all or after the two successful clicks of a reset. When the
    first click on Castle fails, the next click is the map button's: a reset
    is attempted. *)
Theorem go_to_research_area_clicks
    (clock : nat → Q) (last_reset : Q) (w : World) :
  let r := go_to_research_area clock last_reset w in
  let cs := clicks (new_events w r.2) in
  ∃ b last_reset',
    r.1 = Val (b, last_reset')
    ∧ (b = true ↔
       cs = [clicked "Castle"; clicked "Castle"; clicked "ResearchArea"]
       ∨ cs = [clicked "map_button"; clicked "home_button";
               clicked "Castle"; clicked "Castle"; clicked "ResearchArea"])
    ∧ (clicked "Castle" ∉ cs → missed "Castle" ∈ cs →
       ∃ res pre post,
         cs = pre ++ missed "Castle" :: ("map_button", res) :: post).
Proof.
  intros r cs. subst r cs.
  destruct (go_to_research_area_run clock last_reset w)
    as (b & lr' & evs & Hr & Hext & H).
  rewrite (extends_new_events _ _ _ Hext). by exists b, lr'.
Qed.

(** X16: [go_to_dragon_panel] returns; its first click is always the map
    button's, and it returns [True] exactly when its clicks are those of one
    or two successful resets followed by successful clicks on Castle and
    DragonPanel. *)
Theorem go_to_dragon_panel_clicks
    (clock : nat → Q) (last_reset : Q) (w : World) :
  let r := go_to_dragon_panel clock last_reset w in
  let cs := clicks (new_events w r.2) in
  ∃ b last_reset',
    r.1 = Val (b, last_reset')
    ∧ (∃ res rest, cs = ("map_button", res) :: rest)
    ∧ (b = true ↔
       cs = [clicked "map_button"; clicked "home_button";
             clicked "Castle"; clicked "DragonPanel"]
       ∨ cs = [clicked "map_button"; clicked "home_button";
               clicked "map_button"; clicked "home_button";
               clicked "Castle"; clicked "DragonPanel"]).
Proof.
  intros r cs. subst r cs.
  destruct (go_to_dragon_panel_run clock last_reset w)
    as (b & lr' & evs & Hr & Hext & H).
  rewrite (extends_new_events _ _ _ Hext). by exists b, lr'.
Qed.

(** X17: [go_to_shipment_collect] returns, and returns [True] exactly when
    the click on ShipmentCollect succeeded. Once the warehouse was clicked,
    the last click of the run is on BackButton. After the click on
    GoldPickup, found or not, DwelingArea is clicked. ShipmentClaim is
    clicked only after ShipmentCollect succeeded, and ShipmentContinue only
    after ShipmentClaim succeeded. *)
Theorem go_to_shipment_collect_clicks
    (clock : nat → Q) (last_reset : Q) (w : World) :
  let r := go_to_shipment_collect clock last_reset w in
  let cs := clicks (new_events w r.2) in
  ∃ b last_reset',
    r.1 = Val (b, last_reset')
    ∧ (b = true ↔ clicked "ShipmentCollect" ∈ cs)
    ∧ (clicked "WareHouse" ∈ cs →
       ∃ res, last cs = Some ("BackButton", res))
    ∧ (∀ res, ("GoldPickup", res) ∈ cs → ∃ res', ("DwelingArea", res') ∈ cs)
    ∧ (∀ res, ("ShipmentClaim", res) ∈ cs → clicked "ShipmentCollect" ∈ cs)
    ∧ (∀ res, ("ShipmentContinue", res) ∈ cs →
       clicked "ShipmentClaim" ∈ cs).
Proof.
  intros r cs. subst r cs.
  destruct (go_to_shipment_collect_run clock last_reset w)
    as (b & lr' & evs & Hr & Hext & H).
  rewrite (extends_new_events _ _ _ Hext). by exists b, lr'.
Qed.

(** X18: [click_buildings_panel], [click_troops_panel] and
    [click_march_panel] return, and return [True] exactly when their clicks
    are the successful click on their panel, alone or after the two
    successful clicks of a reset. *)
Theorem click_panel_clicks (clock : nat → Q) (last_reset : Q) (w : World) :
  Forall (λ '(method, panel),
            let r : Outcome (bool * Q) * World := method last_reset w in
            let cs := clicks (new_events w r.2) in
            ∃ b last_reset',
              r.1 = Val (b, last_reset')
              ∧ (b = true ↔
                 cs = [clicked panel]
                 ∨ cs = [clicked "map_button"; clicked "home_button";
                         clicked panel]))
    [ (click_buildings_panel clock, "BuildingsPanel");
      (click_troops_panel clock, "TroopsPanel");
      (click_march_panel clock, "MarchPanel") ].
Proof.
  repeat apply List.Forall_cons; [..|apply List.Forall_nil].
  all: cbv zeta.
  all: unfold click_buildings_panel, click_troops_panel, click_march_panel.
  all: match goal with
       | |- context [click_panel ?c ?what ?panel ?lr ?w0] =>
           destruct (click_panel_run c what panel lr w0)
             as (b & lr' & evs & Hr & Hext & H)
       end.
  all: rewrite (extends_new_events _ _ _ Hext); by exists b, lr'.
Qed.


(** X20: without a device every navigation method returns [False] and leaves
    [last_reset] as it was, and neither it nor [run_periodic_tasks] asks the
    matcher or sends anything to the device. *)
Theorem navigation_without_device
    (clock : nat → Q) (last_reset : Q) (w : World) :
  device (bot w) = false →
  Forall (λ method : Q → Py (bool * Q),
            let r := method last_reset w in
            let evs := new_events w r.2 in
            r.1 = Val (false, last_reset)
            ∧ shells evs = [] ∧ detections evs = [])
    [ reset_to_city clock; ensure_in_city clock; go_to_research_area clock;
      go_to_dragon_panel clock; go_to_shipment_collect clock;
      click_buildings_panel clock; click_troops_panel clock;
      click_march_panel clock ]
  ∧ (let r := run_periodic_tasks clock last_reset w in
     let evs := new_events w r.2 in
     r.1 = Val ((), last_reset) ∧ shells evs = [] ∧ detections evs = []).
Proof.
  destruct w as [[dev gui] cfg e t f tr]. cbn [bot device]. intros ->.
  split; [repeat apply List.Forall_cons; [..|apply List.Forall_nil]|].
  all: cbv beta iota zeta delta
         [run_periodic_tasks periodic_tasks run_task for_each
          go_to_shipment_collect go_to_research_area go_to_dragon_panel
          click_buildings_panel click_troops_panel click_march_panel
          click_panel ensure_in_city reset_to_city is_in_city click_element
          fn call traced mbind mret Body_bind Body_ret PyMonad.bind pure
          return_ raise try_except gets emit advance sleep log
          bot config env tick explored_file trace device gui_detector
          fst snd negb].
  all: unfold new_events; cbn [trace];
       rewrite <- ?app_assoc, ?drop_app_length; cbn [app].
  all: done.
Qed.

Lemma navigation_without_device_witness :
  device (bot offline_world) = false
  ∧ (Forall (λ method : Q → Py (bool * Q),
               let r := method 0%Q offline_world in
               let evs := new_events offline_world r.2 in
               r.1 = Val (false, 0%Q)
               ∧ shells evs = [] ∧ detections evs = [])
       [ reset_to_city (λ _, 1%Q); ensure_in_city (λ _, 1%Q);
         go_to_research_area (λ _, 1%Q); go_to_dragon_panel (λ _, 1%Q);
         go_to_shipment_collect (λ _, 1%Q);
         click_buildings_panel (λ _, 1%Q); click_troops_panel (λ _, 1%Q);
         click_march_panel (λ _, 1%Q) ]
     ∧ (let r := run_periodic_tasks (λ _, 1%Q) 0%Q offline_world in
        let evs := new_events offline_world r.2 in
        r.1 = Val ((), 0%Q) ∧ shells evs = [] ∧ detections evs = [])).
Proof.
  split; [reflexivity|].
  apply (navigation_without_device (λ _, 1%Q) 0%Q offline_world).
  reflexivity.
Defined.
